(** * Gaussian elimination with partial pivoting: [decomp] and [solve]

    A shallow embedding of [second_lab/Decomp.cpp] and [second_lab/Solve.cpp]
    (namespace [dimkashelk]).

    - A C++ [double] is a primitive binary64 float ([PrimFloat.float]); every
      arithmetic operation and comparison is the IEEE-754 one the kernel
      evaluates, so signed zeros, infinities and NaN are those of the program.
    - An [int] is a [Z]; array subscripts are [nat].  Signed overflow is
      undefined in C++, hence there is no wrap-around to write out: the model
      speaks about orders whose index arithmetic stays in range.
    - A [double*] / [int*] buffer is a [list]; a read is the total lookup
      [l !!! i], a write is [<[i:=v]> l].  A subscript outside the buffer is
      undefined behaviour in the source; the list operations read the default
      and write nothing there.  The theorems about [decomp] and [solve] state
      the buffer lengths they need, and [Solve::operator()] is undefined when
      the pivot vector it passes on addresses no cell of its block.
    - A block obtained from [new] or [malloc] carries indeterminate values;
      they are supplied by the section variables [junk_double], [junk_int].
    - The caller's [std::vector<double>] and the blocks of [Solve] live in a
      store of addressed blocks, so that what is written can be told from
      what is left alone. *)

From Stdlib Require Import ZArith Lia Floats String.
From stdpp Require Import base option list gmap.

Set Warnings "-inexact-float".

#[global] Instance float_inhabited : Inhabited float := populate 0%float.

(** ** Control: counted loops, and loops left by [goto DecompExit] *)

Inductive ctl (S : Type) : Type :=
  | Next (s : S)    (* the loop body ran to its end *)
  | Exit (s : S).   (* the body jumped out of the loop *)
Arguments Next {S} s.
Arguments Exit {S} s.

(** [for (i = lo; i < hi; ++i) body] *)
Definition for_up {S : Type} (lo hi : nat) (body : nat -> S -> S) (s : S) : S :=
  foldl (fun s i => body i s) s (seq lo (hi - lo)).

(** [for (i = hi - 1; i >= lo; --i) body] *)
Definition for_down {S : Type} (lo hi : nat) (body : nat -> S -> S) (s : S) : S :=
  foldl (fun s i => body i s) s (rev (seq lo (hi - lo))).

(** A loop over the indices [ks] whose body may leave it. *)
Fixpoint for_until {S : Type} (ks : list nat) (body : nat -> S -> ctl S) (s : S) : ctl S :=
  match ks with
  | [] => Next s
  | k :: ks' =>
      match body k s with
      | Next s' => for_until ks' body s'
      | Exit s' => Exit s'
      end
  end.

(** ** [details::solve] and [details::decomp] *)

Module details.

Definition EPSILON : float := 2.2e-16%float.

(** [a[(i * ndim + j)]] *)
Definition ix (ndim i j : nat) : nat := i * ndim + j.

Definition rd (a : list float) (p : nat) : float := a !!! p.

(** [t = b[m]; b[m] = b[k]; b[k] = t;] *)
Definition swap_cells (b : list float) (m k : nat) : list float :=
  let t := rd b m in
  <[k := t]> (<[m := rd b k]> b).

(** Forward elimination of [solve], one value of [k]. *)
Definition forward_step (n ndim : nat) (a : list float) (pivot : list Z)
    (k : nat) (b : list float) : list float :=
  let m := Z.to_nat (pivot !!! k) in
  let t := rd b m in
  let b := <[k := t]> (<[m := rd b k]> b) in
  for_up (k + 1) n (fun i b => <[i := (rd b i + rd a (ix ndim i k) * t)%float]> b) b.

(** The forward elimination loop of [solve]. *)
Definition forward_elim (n ndim : nat) (a : list float) (pivot : list Z)
    (b : list float) : list float :=
  for_up 0 (n - 1) (forward_step n ndim a pivot) b.

(** Back substitution of [solve], one value of [k]. *)
Definition back_step (n ndim : nat) (a : list float) (k : nat) (b : list float) : list float :=
  let t := rd b k in
  let t := for_up (k + 1) n (fun j t => (t - rd a (ix ndim k j) * rd b j)%float) t in
  <[k := (t / rd a (ix ndim k k))%float]> b.

(** [int solve(int n, int ndim, double *a, double b[], int pivot[])]:
    the contents of [b] when the function returns. *)
Definition solve (n ndim : Z) (a : list float) (b : list float) (pivot : list Z) : list float :=
  if (n =? 1)%Z then
    <[0%nat := (rd b 0 / rd a 0)%float]> b
  else
    let N := Z.to_nat n in
    let D := Z.to_nat ndim in
    let b := forward_elim N D a pivot b in
    for_down 0 N (back_step N D a) b.

(** [b[m]] with [m = pivot[k]] is the one subscript of [solve] that the data
    decide: it addresses a cell of [b] when [0 <= pivot[k] < n] for the
    entries [k < n - 1] the forward elimination reads. *)
Definition pivots_in_range (n : nat) (pivot : list Z) : bool :=
  forallb (fun k => ((0 <=? pivot !!! k) && (pivot !!! k <? Z.of_nat n))%Z) (seq 0 (n - 1)).

(** The memory [decomp] writes through its pointer arguments.  [None] is a
    null pointer. *)
Record mem : Type := Mem {
  m_a : option (list float);
  m_cond : float;
  m_pivot : option (list Z);
  m_flag : Z
}.

(** The 1-norm loop: sum of the absolute values of column [j]. *)
Definition col_sum (n ndim : nat) (a : list float) (j : nat) : float :=
  for_up 0 n (fun i t => (t + abs (rd a (ix ndim i j)))%float) 0%float.

Definition norm1 (n ndim : nat) (a : list float) : float :=
  for_up 0 n (fun j anorm =>
                let t := col_sum n ndim a j in
                if (anorm <? t)%float then t else anorm) 0%float.

(** The pivot search of step [k]: the pair [(m, pvt)] when the inner loop ends. *)
Definition find_pivot (n ndim : nat) (a : list float) (k : nat) : nat * float :=
  for_up (k + 1) n
    (fun i mp =>
       let t := abs (rd a (ix ndim i k)) in
       if (snd mp <? t)%float then (i, t) else mp)
    (k, abs (rd a (ix ndim k k))).

(** Interchange of rows [m] and [k] over the columns [k .. n-1]. *)
Definition swap_rows (n ndim : nat) (m k : nat) (a : list float) : list float :=
  for_up k n
    (fun j a =>
       let t := rd a (ix ndim m j) in
       <[ix ndim k j := t]> (<[ix ndim m j := rd a (ix ndim k j)]> a))
    a.

(** Elimination of row [i] against the pivot row [k]. *)
Definition eliminate_row (n ndim : nat) (anorm pvt : float) (k i : nat)
    (a : list float) : list float :=
  let t := (- (rd a (ix ndim i k) / pvt))%float in
  let a := <[ix ndim i k := t]> a in
  for_up (k + 1) n
    (fun j a =>
       if (anorm * EPSILON <? abs t)%float
       then <[ix ndim i j := (rd a (ix ndim i j) + rd a (ix ndim k j) * t)%float]> a
       else a)
    a.

(** The part of step [k] up to the singularity test: pivot search, record,
    interchange.  The result is the buffer, the pivot vector and [pvt]. *)
Definition pivot_phase (n ndim : nat) (k : nat) (ap : list float * list Z)
    : list float * list Z * float :=
  let a := fst ap in
  let pivot := snd ap in
  let m := fst (find_pivot n ndim a k) in
  let pivot := <[k := Z.of_nat m]> pivot in
  let pvt := rd a (ix ndim m k) in
  if decide (m = k) then (a, pivot, pvt)
  else
    let pivot := <[(n - 1)%nat := (- (pivot !!! (n - 1)%nat))%Z]> pivot in
    (swap_rows n ndim m k a, pivot, pvt).

(** One pass of the elimination loop. *)
Definition elim_step (n ndim : nat) (anorm : float) (k : nat)
    (ap : list float * list Z) : ctl (list float * list Z) :=
  let '(a, pivot, pvt) := pivot_phase n ndim k ap in
  if (abs pvt <? anorm * EPSILON)%float then Exit (a, pivot)
  else Next (for_up (k + 1) n (eliminate_row n ndim anorm pvt k) a, pivot).

(** One pass of the loop solving [(a-transpose) * y = e]. *)
Definition ystep (ndim : nat) (anorm : float) (a : list float) (k : nat)
    (work : list float) : ctl (list float) :=
  let t := for_up 0 k (fun i t => (t + rd a (ix ndim i k) * rd work i)%float) 0%float in
  let ek := if (t <? 0)%float then (-1)%float else 1%float in
  let pa := rd a (ix ndim k k) in
  if (abs pa <? anorm * EPSILON)%float then Exit work
  else Next (<[k := (- (ek + t) / pa)%float]> work).

(** One pass of the second loop over [work]. *)
Definition wstep (n ndim : nat) (a : list float) (pivot : list Z) (k : nat)
    (work : list float) : list float :=
  let t := for_up (k + 1) n (fun i t => (t + rd a (ix ndim i k) * rd work i)%float) 0%float in
  let work := <[k := t]> work in
  let m := pivot !!! k in
  if decide (m = Z.of_nat k) then work
  else swap_cells work (Z.to_nat m) k.

(** [ynorm] and [znorm]. *)
Definition sum_abs (n : nat) (work : list float) : float :=
  for_up 0 n (fun i s => (s + abs (rd work i))%float) 0%float.

(** [if ( *cond < 1.0) *cond = 1.0;] *)
Definition floor_one (c : float) : float := if (c <? 1)%float then 1%float else c.

(** The condition estimate on the completed factorization. *)
Definition estimate (n ndim : Z) (anorm : float) (a : list float) (pivot : list Z)
    (work : list float) : float :=
  let N := Z.to_nat n in
  let D := Z.to_nat ndim in
  let work := for_down 0 (N - 1) (wstep N D a pivot) work in
  let ynorm := sum_abs N work in
  let work := solve n ndim a work pivot in
  let znorm := sum_abs N work in
  floor_one (anorm * znorm / ynorm)%float.

(** [int decomp(int n, int ndim, double *a, double *cond, int pivot[], int *flag)].
    [work] is what [malloc(n * sizeof(double))] returns. *)
Definition decomp (n ndim : Z) (work : option (list float)) (s : mem) : mem :=
  match m_a s, m_pivot s with
  | Some a, Some pivot =>
      if ((n <? 1) || (ndim <? n))%Z then Mem (m_a s) (m_cond s) (m_pivot s) 2
      else
        let N := Z.to_nat n in
        let D := Z.to_nat ndim in
        let pivot := <[(N - 1)%nat := 1%Z]> pivot in
        if (n =? 1)%Z then
          if (rd a 0 =? 0)%float then Mem (Some a) 1.0e+32%float (Some pivot) 3
          else Mem (Some a) 1%float (Some pivot) 0
        else
          match work with
          | None => Mem (Some a) (m_cond s) (Some pivot) 1
          | Some work =>
              let anorm := norm1 N D a in
              match for_until (seq 0 (N - 1)) (elim_step N D anorm) (a, pivot) with
              | Exit (a, pivot) => Mem (Some a) 1.0e+32%float (Some pivot) 3
              | Next (a, pivot) =>
                  match for_until (seq 0 N) (ystep D anorm a) work with
                  | Exit _ => Mem (Some a) 1.0e+32%float (Some pivot) 3
                  | Next work =>
                      let c := estimate n ndim anorm a pivot work in
                      Mem (Some a) c (Some pivot)
                          (if (c + 1 =? c)%float then 3 else 0)
                  end
              end
          end
  | _, _ => Mem (m_a s) (m_cond s) (m_pivot s) 2
  end.

End details.

(** ** The classes [Decomp] and [Solve] *)

(** How a member function ends: it returns, it throws [std::logic_error]
    (with the object as it is at the throw), or it runs into undefined
    behaviour (a write past a block, a read through a dangling reference). *)
Inductive outcome (A : Type) : Type :=
  | Returns (x : A)
  | Throws (what : string) (x : A)
  | Undefined.
Arguments Returns {A} x.
Arguments Throws {A} what x.
Arguments Undefined {A}.

(** Status codes of [flag]. *)
Definition OK : Z := 0.
Definition AllocationFailure : Z := 1.
Definition ConfigurationError : Z := 2.
Definition Singular : Z := 3.

Record Decomp : Type := MkDecomp {
  cond_ : float;
  size_ : Z;
  data_ : option (list float);
  pivot_ : option (list Z);
  flag_ : Z
}.

(** [Decomp::Decomp()] *)
Definition Decomp_new : Decomp := MkDecomp 0%float 0 None None 0.

(** Addresses of [double] blocks, and the store that holds them: the storage
    of the caller's [std::vector<double>] and the blocks [Solve] allocates. *)
Abbreviation loc := nat (only parsing).
Abbreviation store := (gmap nat (list float)).

Record Solve : Type := MkSolve { data_right_ : option loc }.

(** The places that allocate [double] blocks: [data_] in
    [Decomp::operator()], [work] in [decomp], [data_right_] in
    [Solve::operator()]. *)
Inductive block : Type := data_block | work_block | rhs_block.

(** [Solve::Solve()] *)
Definition Solve_new : Solve := MkSolve None.

Section Classes.

(** Indeterminate contents of freshly allocated blocks, one family of
    values for each place that allocates, and whether [malloc] inside
    [decomp] fails. *)
Variable junk_double : block -> nat -> float.
Variable junk_int : nat -> Z.
Variable malloc_fails : bool.

(** [new double[k]], [new int[k]], [malloc(k * sizeof(double))] *)
Definition new_double (b : block) (k : nat) : list float := junk_double b <$> seq 0 k.
Definition new_int (k : nat) : list Z := junk_int <$> seq 0 k.
Definition malloc_double (k : nat) : option (list float) :=
  if malloc_fails then None else Some (new_double work_block k).

(** [data_[ind] = j; ind++;] over all rows: [None] when a write falls
    outside the block. *)
Definition fill (matrix : list (list float)) (data : list float) : option (list float) :=
  snd (foldl (fun st j =>
                let ind := fst st in
                (S ind,
                 d ← snd st;
                 if decide (ind < length d) then Some (<[ind := j]> d) else None))
             (0%nat, Some data) (concat matrix)).

(** [void Decomp::operator()(const std::vector<std::vector<double>> &matrix)] *)
Definition Decomp_call (matrix : list (list float)) (self : Decomp) : outcome Decomp :=
  match matrix with
  | [] => Throws "Check matrix" self
  | row0 :: _ =>
      if decide (length matrix = length row0) then
        (* free(): the old blocks go; the object holds the contents of its
           blocks, so their release shows as their replacement.  A failure
           of [new] is not modelled. *)
        let size := Z.of_nat (length matrix) in
        let k := (length matrix * length matrix)%nat in
        match fill matrix (new_double data_block k) with
        | None => Undefined
        | Some data =>
            let m := details.decomp size size (malloc_double (length matrix))
                       (details.Mem (Some data) (cond_ self) (Some (new_int k)) (flag_ self)) in
            Returns (MkDecomp (details.m_cond m) size (details.m_a m)
                              (details.m_pivot m) (details.m_flag m))
        end
      else Throws "Check size of matrix" self
  end.

(** [data_right_[i] = matrix_right[i]] for [i < matrix_right.size()] *)
Definition copy_in (src dst : list float) : list float :=
  for_up 0 (length src) (fun i d => <[i := details.rd src i]> d) dst.

(** [void Solve::operator()(const std::vector<std::vector<double>> &matrix_left,
                            std::vector<double> &matrix_right)].
    [matrix_right] is the address of the caller's vector in the store. *)
Definition Solve_call (matrix_left : list (list float)) (matrix_right : loc)
    (self : Solve) (h : store) : outcome (Solve * store) :=
  match h !! matrix_right with
  | None => Undefined
  | Some b0 =>
      if decide (length matrix_left = length b0) then
        (* free() *)
        let freed :=
          match data_right_ self with
          | None => Some h
          | Some p => if decide (is_Some (h !! p)) then Some (delete p h) else None
          end in
        match freed with
        | None => Undefined
        | Some h1 =>
            (* data_right_ = new double[matrix_right.size()] *)
            match h1 !! matrix_right with
            | None => Undefined
            | Some b1 =>
                let p := fresh (dom h1) in
                let h2 := <[p := new_double rhs_block (length b1)]> h1 in
                let self' := MkSolve (Some p) in
                (* data_right_[i] = matrix_right[i] *)
                match h2 !! matrix_right with
                | None => Undefined
                | Some b =>
                    let h3 := <[p := copy_in b (h2 !!! p)]> h2 in
                    (* Decomp dec; dec(matrix_left); *)
                    match Decomp_call matrix_left Decomp_new with
                    | Undefined => Undefined
                    | Throws what _ => Throws what (self', h3)
                    | Returns dec =>
                        let size := Z.of_nat (length matrix_left) in
                        let a := default [] (data_ dec) in
                        let pivot := default [] (pivot_ dec) in
                        (* details::solve(size, size, dec.data_, data_right_, dec.pivot_):
                           undefined when a pivot entry addresses no cell of
                           the block *)
                        if details.pivots_in_range (length matrix_left) pivot
                        then Returns (self', <[p := details.solve size size a (h3 !!! p) pivot]> h3)
                        else Undefined
                    end
                end
            end
        end
      else Throws "Check data" (self, h)
  end.

End Classes.

(** ** Predicates used in the statements *)

(** A matrix all of whose rows are as long as the matrix has rows. *)
Definition square (matrix : list (list float)) : Prop :=
  Forall (fun row => length row = length matrix) matrix.

(** The block a [Solve] object holds is its own: [data_right_] is null, or
    the address of a live block that is not the caller's vector. *)
Definition owned (self : Solve) (rb : loc) (h : store) : Prop :=
  match data_right_ self with
  | None => True
  | Some q => q <> rb /\ is_Some (h !! q)
  end.

(** The store after [free()]. *)
Definition released (self : Solve) (h : store) : store :=
  match data_right_ self with
  | None => h
  | Some q => delete q h
  end.


(** The elimination loop of [decomp] after its first [k] passes, started as
    [decomp] starts it: on the caller's buffer, with [pivot[n-1] = 1]. *)
Definition elim_prefix (n ndim : Z) (a : list float) (pivot : list Z) (k : nat)
    : ctl (list float * list Z) :=
  let N := Z.to_nat n in
  let D := Z.to_nat ndim in
  for_until (seq 0 k) (details.elim_step N D (details.norm1 N D a))
            (a, <[(N - 1)%nat := 1%Z]> pivot).

(** The number of row interchanges made by the passes [0 .. k-1]. *)
Fixpoint interchanges (n ndim : Z) (a : list float) (pivot : list Z) (k : nat) : nat :=
  match k with
  | 0 => 0
  | S k' =>
      interchanges n ndim a pivot k' +
      match elim_prefix n ndim a pivot k' with
      | Next ap =>
          if decide (fst (details.find_pivot (Z.to_nat n) (Z.to_nat ndim) (fst ap) k') = k')
          then 0 else 1
      | Exit _ => 0
      end
  end.

(** The identity matrix of order [n], as the caller passes it. *)
Definition unit_entry (i j : nat) : float := if decide (i = j) then 1%float else 0%float.

Definition identity (n : nat) : list (list float) :=
  (fun i => unit_entry i <$> seq 0 n) <$> seq 0 n.

(** A block of [n] cells, and a row-major block of [n * n] cells, given by
    their entries. *)
Definition vec (n : nat) (f : nat -> float) : list float := f <$> seq 0 n.

Definition tab (n : nat) (f : nat -> nat -> float) : list float :=
  (fun p => f (p / n) (p mod n)) <$> seq 0 (n * n).

(** The factor buffer of the identity inside pass [k] of the elimination,
    when the rows above [i0] have been treated: multipliers [-0.0] below the
    diagonal in the columns done, the identity elsewhere. *)
Definition elim_entry (k i0 : nat) (i j : nat) : float :=
  if decide (i = j) then 1%float
  else if decide (j < i /\ (j < k \/ (j = k /\ i < i0))) then (-0)%float
  else 0%float.

(** The vector [(0, ..., 0, -1)] of length [n]. *)
Definition last_minus_one (n : nat) (i : nat) : float :=
  if decide (i = n - 1) then (-1)%float else 0%float.

(** The pivot vector after the first [k] passes on the identity. *)
Definition identity_pivot (k : nat) (pivot : list Z) : list Z :=
  for_up 0 k (fun j p => <[j := Z.of_nat j]> p) pivot.

(** Sample contents of fresh blocks, for the closed instances. *)
Definition zero_double (_ : block) (_ : nat) : float := 0%float.
Definition zero_int (_ : nat) : Z := 0%Z.

(** The cells of a buffer with row stride [ndim] that lie outside the
    [n] by [n] block [decomp] works on. *)
Definition outside_block (n ndim : nat) (q : nat) : Prop :=
  forall i j, i < n -> j < n -> q <> details.ix ndim i j.


(** [void Solve::free() const]: the block goes, the pointer stays.  [None]
    stands for the release of a block that is not live. *)
Definition Solve_free (self : Solve) (h : store) : option store :=
  match data_right_ self with
  | None => Some h
  | Some p => if decide (is_Some (h !! p)) then Some (delete p h) else None
  end.

(** [Solve::~Solve()] *)
Definition Solve_dtor (self : Solve) (h : store) : option store := Solve_free self h.
(** * Loop rules *)

Section LoopRules.
Context {S : Type}.
Implicit Types (body : nat -> S -> S) (s : S).

Lemma for_up_ge lo hi body s : hi <= lo -> for_up lo hi body s = s.
Proof.
  intros H. unfold for_up. replace (hi - lo) with 0 by lia. reflexivity.
Qed.

Lemma for_up_S lo hi body s :
  lo <= hi -> for_up lo (Datatypes.S hi) body s = body hi (for_up lo hi body s).
Proof.
  intros H. unfold for_up.
  replace (Datatypes.S hi - lo) with (Datatypes.S (hi - lo)) by lia.
  rewrite seq_S, foldl_app. simpl.
  replace (lo + (hi - lo)) with hi by lia. reflexivity.
Qed.

Lemma for_up_first lo hi body s :
  lo < hi -> for_up lo hi body s = for_up (Datatypes.S lo) hi body (body lo s).
Proof.
  intros H. unfold for_up.
  replace (hi - lo) with (Datatypes.S (hi - Datatypes.S lo)) by lia.
  reflexivity.
Qed.

(** Invariant rule for an ascending loop. *)
Lemma for_up_ind (P : nat -> S -> Prop) lo hi body s :
  lo <= hi ->
  P lo s ->
  (forall i t, lo <= i < hi -> P i t -> P (Datatypes.S i) (body i t)) ->
  P hi (for_up lo hi body s).
Proof.
  intros Hle H0 Hstep. induction hi as [|hi IH].
  - assert (lo = 0) by lia. subst. rewrite for_up_ge by lia. exact H0.
  - destruct (decide (lo = Datatypes.S hi)) as [->|Hne].
    + rewrite for_up_ge by lia. exact H0.
    + rewrite for_up_S by lia. apply Hstep; [lia|].
      apply IH; [lia|]. intros i t Hi. apply Hstep. lia.
Qed.

Lemma for_down_S lo hi body s :
  lo <= hi -> for_down lo (Datatypes.S hi) body s = for_down lo hi body (body hi s).
Proof.
  intros H. unfold for_down.
  replace (Datatypes.S hi - lo) with (Datatypes.S (hi - lo)) by lia.
  rewrite seq_S, rev_app_distr. simpl.
  replace (lo + (hi - lo)) with hi by lia. reflexivity.
Qed.

Lemma for_down_ge lo hi body s : hi <= lo -> for_down lo hi body s = s.
Proof.
  intros H. unfold for_down. replace (hi - lo) with 0 by lia. reflexivity.
Qed.

(** Invariant rule for a descending loop: [P i] holds before the pass for
    index [i - 1]. *)
Lemma for_down_ind (P : nat -> S -> Prop) lo hi body s :
  lo <= hi ->
  P hi s ->
  (forall i t, lo <= i < hi -> P (Datatypes.S i) t -> P i (body i t)) ->
  P lo (for_down lo hi body s).
Proof.
  intros Hle. revert s. induction hi as [|hi IH]; intros s H0 Hstep.
  - assert (lo = 0) by lia. subst. rewrite for_down_ge by lia. exact H0.
  - destruct (decide (lo = Datatypes.S hi)) as [->|Hne].
    + rewrite for_down_ge by lia. exact H0.
    + rewrite for_down_S by lia. apply IH; [lia| |].
      * apply Hstep; [lia|exact H0].
      * intros i t Hi. apply Hstep. lia.
Qed.

Lemma for_until_app (ks1 ks2 : list nat) (body : nat -> S -> ctl S) s :
  for_until (ks1 ++ ks2) body s =
  match for_until ks1 body s with
  | Next s' => for_until ks2 body s'
  | Exit s' => Exit s'
  end.
Proof.
  revert s. induction ks1 as [|k ks1 IH]; intros s; simpl; [reflexivity|].
  destruct (body k s); [apply IH|reflexivity].
Qed.

(** A loop that reached pass [k] and leaves there, leaves as a whole. *)
Lemma for_until_exit_at (n k : nat) (body : nat -> S -> ctl S) s sk se :
  k < n ->
  for_until (seq 0 k) body s = Next sk ->
  body k sk = Exit se ->
  for_until (seq 0 n) body s = Exit se.
Proof.
  intros Hk Hpre Hex.
  replace n with (k + (1 + (n - k - 1))) by lia.
  rewrite seq_app, for_until_app, Hpre. simpl. rewrite Hex. reflexivity.
Qed.

Lemma for_until_snoc (k : nat) (body : nat -> S -> ctl S) s :
  for_until (seq 0 (Datatypes.S k)) body s =
  match for_until (seq 0 k) body s with
  | Next s' => body k s'
  | Exit s' => Exit s'
  end.
Proof.
  rewrite seq_S, for_until_app. simpl.
  destruct (for_until (seq 0 k) body s) as [s'|s']; [|reflexivity].
  destruct (body k s'); reflexivity.
Qed.

(** A loop that completes has completed each of its prefixes. *)
Lemma for_until_prefix (n k : nat) (body : nat -> S -> ctl S) s sn :
  k <= n ->
  for_until (seq 0 n) body s = Next sn ->
  exists sk, for_until (seq 0 k) body s = Next sk.
Proof.
  intros Hk. replace n with (k + (n - k)) by lia.
  rewrite seq_app, for_until_app.
  destruct (for_until (seq 0 k) body s) as [sk|sk]; [eauto|discriminate].
Qed.

End LoopRules.


(** * The order of binary64 values *)

Module float_order.

Local Ltac cmp_cases :=
  repeat match goal with
         | |- context [Z.compare ?a ?b] => destruct (Z.compare_spec a b)
         | H : context [Z.compare ?a ?b] |- _ => destruct (Z.compare_spec a b)
         | |- context [Pos.compare_cont Eq ?a ?b] =>
             change (Pos.compare_cont Eq a b) with (Pos.compare a b);
             destruct (Pos.compare_spec a b)
         | H : context [Pos.compare_cont Eq ?a ?b] |- _ =>
             change (Pos.compare_cont Eq a b) with (Pos.compare a b) in H;
             destruct (Pos.compare_spec a b)
         end.

Lemma SFltb_trans (x y z : spec_float) :
  SFltb x y = true -> SFltb y z = true -> SFltb x z = true.
Proof.
  unfold SFltb, SFcompare.
  destruct x as [sx|sx| |sx mx ex], y as [sy|sy| |sy my ey], z as [sz|sz| |sz mz ez];
    try discriminate; try reflexivity;
    repeat match goal with s : bool |- _ => destruct s end;
    try discriminate; try reflexivity;
    intros H1 H2; cmp_cases; subst; simpl in *;
    try discriminate; try reflexivity; try lia.
Qed.

Lemma ltb_trans (x y z : float) :
  (x <? y)%float = true -> (y <? z)%float = true -> (x <? z)%float = true.
Proof. rewrite !ltb_spec. apply SFltb_trans. Qed.

Lemma SFltb_leb_trans (x y z : spec_float) :
  SFltb x y = true -> SFleb y z = true -> SFltb x z = true.
Proof.
  unfold SFltb, SFleb, SFcompare.
  destruct x as [sx|sx| |sx mx ex], y as [sy|sy| |sy my ey], z as [sz|sz| |sz mz ez];
    try discriminate; try reflexivity;
    repeat match goal with s : bool |- _ => destruct s end;
    try discriminate; try reflexivity;
    intros H1 H2; cmp_cases; subst; simpl in *;
    try discriminate; try reflexivity; try lia.
Qed.

Lemma ltb_leb_trans (x y z : float) :
  (x <? y)%float = true -> (y <=? z)%float = true -> (x <? z)%float = true.
Proof. rewrite !ltb_spec, leb_spec. apply SFltb_leb_trans. Qed.

Lemma SFleb_ltb_leb (x y z : spec_float) :
  SFleb x y = true -> SFltb y z = true -> SFleb x z = true.
Proof.
  unfold SFltb, SFleb, SFcompare.
  destruct x as [sx|sx| |sx mx ex], y as [sy|sy| |sy my ey], z as [sz|sz| |sz mz ez];
    try discriminate; try reflexivity;
    repeat match goal with s : bool |- _ => destruct s end;
    try discriminate; try reflexivity;
    intros H1 H2; cmp_cases; subst; simpl in *;
    try discriminate; try reflexivity; try lia.
Qed.

Lemma leb_ltb_leb (x y z : float) :
  (x <=? y)%float = true -> (y <? z)%float = true -> (x <=? z)%float = true.
Proof. rewrite !leb_spec, ltb_spec. apply SFleb_ltb_leb. Qed.

Lemma ltb_irrefl (x : float) : (x <? x)%float = false.
Proof.
  rewrite ltb_spec. unfold SFltb, SFcompare.
  destruct (Prim2SF x) as [s|s| |s m e]; try reflexivity.
  - destruct s; reflexivity.
  - destruct s; rewrite Z.compare_refl;
      change (Pos.compare_cont Eq m m) with (Pos.compare m m);
      rewrite Pos.compare_refl; reflexivity.
Qed.

(** A value that is not below [y] is NaN, or [y] is NaN, or [y <= x]. *)
Lemma not_ltb (x y : float) :
  (x <? y)%float = false -> x = nan \/ y = nan \/ (y <=? x)%float = true.
Proof.
  rewrite ltb_spec, leb_spec.
  assert (Hnan : forall u, Prim2SF u = S754_nan -> u = nan).
  { intros u Hu. rewrite <- (SF2Prim_Prim2SF u), Hu. reflexivity. }
  destruct (Prim2SF x) as [sx|sx| |sx mx ex] eqn:Ex;
    [| |left; apply Hnan, Ex|];
    (destruct (Prim2SF y) as [sy|sy| |sy my ey] eqn:Ey;
     [| |right; left; apply Hnan, Ey|]);
    intros H; right; right; revert H; unfold SFltb, SFleb, SFcompare;
    repeat match goal with s : bool |- _ => destruct s end;
    try discriminate; try reflexivity;
    cmp_cases; subst; simpl in *; try discriminate; try reflexivity; try lia.
Qed.

End float_order.
(** * The class layer: what [Decomp::operator()] and [Solve::operator()] do *)

Lemma concat_length_rows (c : nat) (rows : list (list float)) :
  Forall (fun row => length row = c) rows ->
  length (concat rows) = length rows * c.
Proof.
  induction 1 as [|row rows Hrow _ IH]; simpl; [reflexivity|].
  rewrite length_app, IH, Hrow. reflexivity.
Qed.

Section ClassFacts.
Variable junk_double : block -> nat -> float.
Variable junk_int : nat -> Z.
Variable malloc_fails : bool.

Lemma new_double_length b k : length (new_double junk_double b k) = k.
Proof. unfold new_double. rewrite length_fmap, length_seq. reflexivity. Qed.

Lemma new_int_length k : length (new_int junk_int k) = k.
Proof. unfold new_int. rewrite length_fmap, length_seq. reflexivity. Qed.

(** The copy loop of [Decomp::operator()] overwrites a prefix of the block. *)
Lemma fill_loop (xs : list float) : forall (ind : nat) (d : list float),
  ind + length xs <= length d ->
  foldl (fun st j =>
           let ind := fst st in
           (S ind,
            d ← snd st;
            if decide (ind < length d) then Some (<[ind := j]> d) else None))
        (ind, Some d) xs
  = (ind + length xs, Some (take ind d ++ xs ++ drop (ind + length xs) d)).
Proof.
  induction xs as [|x xs IH]; intros ind d Hlen; simpl in *.
  - rewrite Nat.add_0_r, take_drop. reflexivity.
  - destruct (decide (ind < length d)) as [Hlt|]; [|lia].
    rewrite IH by (rewrite length_insert; lia).
    replace (S ind + length xs) with (ind + S (length xs)) by lia.
    f_equal. f_equal.
    rewrite drop_insert_lt by lia.
    rewrite (take_S_r _ _ x) by (apply list_lookup_insert_eq; lia).
    rewrite take_insert_ge by lia.
    rewrite <- app_assoc. reflexivity.
Qed.

Lemma fill_exact (matrix : list (list float)) (d : list float) :
  length d = length (concat matrix) -> fill matrix d = Some (concat matrix).
Proof.
  intros Hd. unfold fill. rewrite fill_loop by (simpl; lia). simpl.
  rewrite drop_ge by lia. rewrite app_nil_r. reflexivity.
Qed.

(** On a non-empty square matrix [Decomp::operator()] returns, and the object
    then holds what [details::decomp] left in the freshly filled buffers. *)
Lemma Decomp_call_square (matrix : list (list float)) (self : Decomp) :
  matrix <> [] -> square matrix ->
  let n := length matrix in
  let m := details.decomp (Z.of_nat n) (Z.of_nat n) (malloc_double junk_double malloc_fails n)
             (details.Mem (Some (concat matrix)) (cond_ self)
                          (Some (new_int junk_int (n * n))) (flag_ self)) in
  Decomp_call junk_double junk_int malloc_fails matrix self =
  Returns (MkDecomp (details.m_cond m) (Z.of_nat n) (details.m_a m)
                    (details.m_pivot m) (details.m_flag m)).
Proof.
  intros Hne Hsq. destruct matrix as [|row0 rest]; [congruence|].
  unfold Decomp_call.
  assert (Hrow0 : length row0 = length (row0 :: rest)).
  { unfold square in Hsq. rewrite Forall_cons in Hsq. tauto. }
  destruct (decide (length (row0 :: rest) = length row0)) as [_|Hbad]; [|congruence].
  rewrite fill_exact; [reflexivity|].
  rewrite new_double_length. symmetry. apply concat_length_rows. exact Hsq.
Qed.

(** [Decomp::operator()] rejects an empty matrix, and one whose first row is
    not as long as the matrix has rows, and leaves the object as it was. *)
Lemma Decomp_call_empty (self : Decomp) :
  Decomp_call junk_double junk_int malloc_fails [] self = Throws "Check matrix" self.
Proof. reflexivity. Qed.

Lemma Decomp_call_first_row (row0 : list float) (rest : list (list float)) (self : Decomp) :
  length (row0 :: rest) <> length row0 ->
  Decomp_call junk_double junk_int malloc_fails (row0 :: rest) self
  = Throws "Check size of matrix" self.
Proof.
  intros H. unfold Decomp_call.
  destruct (decide (length (row0 :: rest) = length row0)); [contradiction|reflexivity].
Qed.

(** The copy loop of [Solve::operator()]. *)
Lemma copy_in_same_length (src dst : list float) :
  length dst = length src -> copy_in src dst = src.
Proof.
  intros Hlen. unfold copy_in.
  cut (length (for_up 0 (length src) (fun i d => <[i := details.rd src i]> d) dst) = length src /\
       forall j, j < length src ->
         for_up 0 (length src) (fun i d => <[i := details.rd src i]> d) dst !! j = src !! j).
  { intros [Hl Hp]. apply list_eq. intros j.
    destruct (decide (j < length src)) as [Hj|Hj]; [apply Hp, Hj|].
    rewrite !lookup_ge_None_2 by lia. reflexivity. }
  apply (for_up_ind (fun i d => length d = length src /\
                                forall j, j < i -> d !! j = src !! j)).
  - lia.
  - split; [exact Hlen|]. intros j Hj. lia.
  - intros i d Hi [Hd Hpre]. split; [rewrite length_insert; exact Hd|].
    intros j Hj. destruct (decide (j = i)) as [->|Hne].
    + rewrite list_lookup_insert_eq by lia. symmetry.
      apply list_lookup_lookup_total_lt. lia.
    + rewrite list_lookup_insert_ne by congruence. apply Hpre. lia.
Qed.

End ClassFacts.

(** * Facts about [details::decomp] that need no arithmetic *)

Module decomp_facts.
Import details.

(** Illegal input: [flag = 2], and nothing else is written. *)
Lemma decomp_illegal (n ndim : Z) (work : option (list float)) (s : mem) :
  m_a s = None \/ m_pivot s = None \/ (n < 1)%Z \/ (ndim < n)%Z ->
  decomp n ndim work s = Mem (m_a s) (m_cond s) (m_pivot s) 2.
Proof.
  intros H. unfold decomp.
  destruct (m_a s) as [a|] eqn:Ha; [|reflexivity].
  destruct (m_pivot s) as [p|] eqn:Hp; [|reflexivity].
  destruct H as [H|[H|H]]; try discriminate.
  replace ((n <? 1)%Z || (ndim <? n)%Z) with true; [reflexivity|].
  symmetry. apply orb_true_iff. rewrite !Z.ltb_lt. exact H.
Qed.

(** With both buffers present, [flag = 2] is reported for [n < 1] or
    [ndim < n] only. *)
Lemma decomp_flag_2 (n ndim : Z) work a c p f :
  m_flag (decomp n ndim work (Mem (Some a) c (Some p) f)) = 2%Z ->
  (n < 1)%Z \/ (ndim < n)%Z.
Proof.
  unfold decomp. simpl.
  destruct ((n <? 1)%Z || (ndim <? n)%Z) eqn:E.
  { intros _. apply orb_true_iff in E. rewrite !Z.ltb_lt in E. exact E. }
  destruct (n =? 1)%Z.
  { destruct (rd a 0 =? 0)%float; simpl; discriminate. }
  destruct work as [w|]; [|simpl; discriminate].
  destruct (for_until _ _ _) as [[a1 p1]|[a1 p1]]; [|simpl; discriminate].
  destruct (for_until _ _ _) as [w1|w1]; [|simpl; discriminate].
  simpl. destruct (_ =? _)%float; discriminate.
Qed.

(** The buffers stay present. *)
Lemma decomp_keeps_buffers (n ndim : Z) work a c p f :
  exists a' p', m_a (decomp n ndim work (Mem (Some a) c (Some p) f)) = Some a' /\
                m_pivot (decomp n ndim work (Mem (Some a) c (Some p) f)) = Some p'.
Proof.
  unfold decomp. simpl.
  destruct ((n <? 1)%Z || (ndim <? n)%Z); [simpl; eauto|].
  destruct (n =? 1)%Z.
  { destruct (rd a 0 =? 0)%float; simpl; eauto. }
  destruct work as [w|]; [|simpl; eauto].
  destruct (for_until _ _ _) as [[a1 p1]|[a1 p1]]; [|simpl; eauto].
  destruct (for_until _ _ _) as [w1|w1]; simpl; eauto.
Qed.

(** The shape of [decomp] for an order of at least two and a workspace. *)
Lemma decomp_unfold (n ndim : Z) (work a : list float) (c : float) (p : list Z) (f : Z) :
  (2 <= n)%Z -> (n <= ndim)%Z ->
  decomp n ndim (Some work) (Mem (Some a) c (Some p) f) =
  let N := Z.to_nat n in
  let D := Z.to_nat ndim in
  let anorm := norm1 N D a in
  match for_until (seq 0 (N - 1)) (elim_step N D anorm) (a, <[(N - 1)%nat := 1%Z]> p) with
  | Exit (a', p') => Mem (Some a') 1.0e+32%float (Some p') 3
  | Next (a', p') =>
      match for_until (seq 0 N) (ystep D anorm a') work with
      | Exit _ => Mem (Some a') 1.0e+32%float (Some p') 3
      | Next w =>
          let cnd := estimate n ndim anorm a' p' w in
          Mem (Some a') cnd (Some p') (if (cnd + 1 =? cnd)%float then 3 else 0)
      end
  end.
Proof.
  intros Hn Hd. unfold decomp. simpl.
  replace ((n <? 1)%Z || (ndim <? n)%Z) with false
    by (symmetry; apply orb_false_iff; rewrite !Z.ltb_ge; lia).
  replace (n =? 1)%Z with false by (symmetry; apply Z.eqb_neq; lia).
  reflexivity.
Qed.

End decomp_facts.


(** * The floor of the condition estimate *)

Module estimate_facts.
Import details.

(** [floor_one] gives a value of at least [1.0], unless it is handed NaN:
    the comparison [c < 1.0] is false on NaN, which is then kept. *)
Lemma floor_one_spec (c : float) :
  (c = nan /\ floor_one c = nan) \/ (1 <=? floor_one c)%float = true.
Proof.
  unfold floor_one. destruct (c <? 1)%float eqn:E; [right; reflexivity|].
  apply float_order.not_ltb in E as [->|[E|E]].
  - left. split; reflexivity.
  - apply (f_equal is_nan) in E. discriminate E.
  - right. exact E.
Qed.

(** When neither loop leaves early, the condition is the floored quotient
    and the status is [Singular] exactly when [cond + 1.0 == cond]. *)
Lemma decomp_completed (n ndim : Z) (work a : list float) (c : float) (p : list Z) (f : Z)
    (a' : list float) (p' : list Z) (w : list float) :
  (2 <= n)%Z -> (n <= ndim)%Z ->
  let N := Z.to_nat n in
  let D := Z.to_nat ndim in
  let anorm := norm1 N D a in
  for_until (seq 0 (N - 1)) (elim_step N D anorm) (a, <[(N - 1)%nat := 1%Z]> p)
  = Next (a', p') ->
  for_until (seq 0 N) (ystep D anorm a') work = Next w ->
  let y := for_down 0 (N - 1) (wstep N D a' p') w in
  let z := solve n ndim a' y p' in
  let cnd := floor_one (anorm * sum_abs N z / sum_abs N y)%float in
  decomp n ndim (Some work) (Mem (Some a) c (Some p) f)
  = Mem (Some a') cnd (Some p') (if (cnd + 1 =? cnd)%float then 3 else 0).
Proof.
  intros Hn Hd N D anorm Hel Hy y z cnd.
  rewrite decomp_facts.decomp_unfold by assumption. cbv zeta.
  fold N D anorm. rewrite Hel, Hy. reflexivity.
Qed.

End estimate_facts.
(** * [Solve::operator()] *)

Section SolveFacts.
Variable junk_double : block -> nat -> float.
Variable junk_int : nat -> Z.
Variable malloc_fails : bool.

Lemma released_lookup (self : Solve) (rb : loc) (h : store) (bv : list float) :
  owned self rb h -> h !! rb = Some bv -> released self h !! rb = Some bv.
Proof.
  unfold owned, released. destruct (data_right_ self) as [q|]; [|tauto].
  intros [Hne _] Hb. rewrite lookup_delete_ne by exact Hne. exact Hb.
Qed.

Lemma fresh_not_live (h : store) (rb : loc) (bv : list float) :
  h !! rb = Some bv -> fresh (dom h) <> rb.
Proof.
  intros Hb Heq. apply (is_fresh (dom h)). rewrite Heq.
  apply elem_of_dom. eauto.
Qed.

(** Once the factorization returns, the solve runs on whatever it left:
    the new block receives [details::solve] of the copied right-hand side. *)
Lemma Solve_call_runs (A : list (list float)) (rb : loc) (bv : list float)
    (self : Solve) (h : store) (dec : Decomp) :
  h !! rb = Some bv ->
  length A = length bv ->
  owned self rb h ->
  Decomp_call junk_double junk_int malloc_fails A Decomp_new = Returns dec ->
  details.pivots_in_range (length A) (default [] (pivot_ dec)) = true ->
  let p := fresh (dom (released self h)) in
  let n := Z.of_nat (length A) in
  p <> rb /\
  Solve_call junk_double junk_int malloc_fails A rb self h =
  Returns (MkSolve (Some p),
           <[p := details.solve n n (default [] (data_ dec)) bv (default [] (pivot_ dec))]>
             (released self h)).
Proof.
  intros Hb Hlen Hown Hdec Hpiv p n.
  pose proof (released_lookup _ _ _ _ Hown Hb) as Hb1.
  pose proof (fresh_not_live _ _ _ Hb1) as Hp. fold p in Hp.
  split; [exact Hp|].
  unfold Solve_call. rewrite Hb.
  destruct (decide (length A = length bv)) as [_|]; [|contradiction].
  assert (Hfree :
    match data_right_ self with
    | None => Some h
    | Some q => if decide (is_Some (h !! q)) then Some (delete q h) else None
    end = Some (released self h)).
  { unfold owned, released in *. destruct (data_right_ self) as [q|]; [|reflexivity].
    destruct Hown as [_ Hlive]. destruct (decide (is_Some (h !! q))); tauto. }
  rewrite Hfree, Hb1. fold p.
  rewrite lookup_insert_ne by exact Hp. rewrite Hb1.
  rewrite Hdec, Hpiv. fold n.
  rewrite !lookup_total_insert_eq.
  rewrite copy_in_same_length by apply new_double_length.
  rewrite !insert_insert_eq. reflexivity.
Qed.

(** Whatever way [Solve::operator()] ends, the store it leaves holds the
    caller's vector as it was. *)
Lemma Solve_call_frame (A : list (list float)) (rb : loc) (bv : list float)
    (self self' : Solve) (h h' : store) :
  h !! rb = Some bv ->
  (Solve_call junk_double junk_int malloc_fails A rb self h = Returns (self', h') \/
   exists what, Solve_call junk_double junk_int malloc_fails A rb self h
                = Throws what (self', h')) ->
  h' !! rb = Some bv.
Proof.
  intros Hb. unfold Solve_call. rewrite Hb.
  destruct (decide (length A = length bv)) as [_|_].
  2:{ intros [H|[w H]]; [discriminate|]. injection H as _ _ <-. exact Hb. }
  set (freed := match data_right_ self with
                | None => Some h
                | Some q => if decide (is_Some (h !! q)) then Some (delete q h) else None
                end).
  assert (Hfreed : forall h1, freed = Some h1 ->
            h1 !! rb = Some bv \/ h1 !! rb = None).
  { unfold freed. intros h1. destruct (data_right_ self) as [q|].
    - destruct (decide (is_Some (h !! q))); [|discriminate].
      intros [= <-]. destruct (decide (q = rb)) as [->|Hne].
      + right. apply lookup_delete_eq.
      + left. rewrite lookup_delete_ne by exact Hne. exact Hb.
    - intros [= <-]. left. exact Hb. }
  destruct freed as [h1|]; [|intros [H|[w H]]; discriminate].
  destruct (Hfreed h1 eq_refl) as [Hb1|Hb1]; rewrite Hb1.
  2:{ intros [H|[w H]]; discriminate. }
  pose proof (fresh_not_live _ _ _ Hb1) as Hp.
  rewrite lookup_insert_ne by exact Hp. rewrite Hb1.
  destruct (Decomp_call _ _ _ A Decomp_new) as [dec|w dec|].
  - destruct (details.pivots_in_range _ _); intros [H|[w' H]]; try discriminate.
    injection H as _ <-.
    rewrite !lookup_insert_ne by exact Hp. exact Hb1.
  - intros [H|[w' H]]; [discriminate|]. injection H as _ _ <-.
    rewrite !lookup_insert_ne by exact Hp. exact Hb1.
  - intros [H|[w' H]]; discriminate.
Qed.

End SolveFacts.

(** * Facts about [details::solve] *)

Module solve_facts.
Import details.

Lemma rd_insert_eq (b : list float) (i : nat) (v : float) :
  i < length b -> rd (<[i := v]> b) i = v.
Proof. intros H. unfold rd. apply list_lookup_total_insert_eq. exact H. Qed.

Lemma rd_insert_ne (b : list float) (i j : nat) (v : float) :
  i <> j -> rd (<[i := v]> b) j = rd b j.
Proof. intros H. unfold rd. apply list_lookup_total_insert_ne. exact H. Qed.

Lemma forward_step_length n ndim a pivot k b :
  length (forward_step n ndim a pivot k b) = length b.
Proof.
  unfold forward_step.
  destruct (decide (k + 1 <= n)) as [Hle|Hgt].
  - apply (for_up_ind (fun _ t => length t = length b)); [exact Hle| |].
    + rewrite !length_insert. reflexivity.
    + intros i t _ Ht. rewrite length_insert. exact Ht.
  - rewrite for_up_ge by lia. rewrite !length_insert. reflexivity.
Qed.

Lemma forward_length n ndim a pivot hi b :
  length (for_up 0 hi (forward_step n ndim a pivot) b) = length b.
Proof.
  apply (for_up_ind (fun _ t => length t = length b)); [lia|reflexivity|].
  intros i t _ Ht. rewrite forward_step_length. exact Ht.
Qed.

Lemma back_step_length n ndim a k b : length (back_step n ndim a k b) = length b.
Proof. unfold back_step. apply length_insert. Qed.

(** A pass of the back substitution writes cell [k] only. *)
Lemma back_step_other n ndim a k b j : j <> k -> rd (back_step n ndim a k b) j = rd b j.
Proof. intros H. unfold back_step. apply rd_insert_ne. congruence. Qed.

(** Every pass of the back substitution ends in a division by the diagonal
    entry, with nothing tested before. *)
Lemma back_step_divides n ndim a k b :
  k < length b ->
  rd (back_step n ndim a k b) k
  = (for_up (k + 1) n (fun j t => (t - rd a (ix ndim k j) * rd b j)%float) (rd b k)
     / rd a (ix ndim k k))%float.
Proof. intros H. unfold back_step. apply rd_insert_eq. exact H. Qed.

(** The last unknown is the quotient by the last diagonal entry, whatever
    that entry is: [solve] has no test before it divides. *)
Lemma solve_last (n ndim : Z) (a b : list float) (pivot : list Z) :
  (1 <= n)%Z -> length b = Z.to_nat n ->
  let l := (Z.to_nat n - 1)%nat in
  rd (solve n ndim a b pivot) l
  = (rd (if (n =? 1)%Z then b
         else forward_elim (Z.to_nat n) (Z.to_nat ndim) a pivot b) l
     / rd a (ix (Z.to_nat ndim) l l))%float.
Proof.
  intros Hn Hlen l. unfold solve, forward_elim.
  destruct (n =? 1)%Z eqn:E.
  - apply Z.eqb_eq in E. subst n. simpl in *.
    unfold l. simpl. rewrite rd_insert_eq by lia. reflexivity.
  - apply Z.eqb_neq in E.
    set (N := Z.to_nat n) in *. set (D := Z.to_nat ndim).
    set (fwd := for_up 0 (N - 1) (forward_step N D a pivot) b).
    assert (HN : N = S l) by (unfold l, N; lia).
    assert (Hf : length fwd = N) by (unfold fwd; rewrite forward_length; exact Hlen).
    rewrite HN at 1. rewrite for_down_S by lia.
    set (v := (rd fwd l / rd a (ix D l l))%float).
    assert (H1 : rd (back_step N D a l fwd) l = v /\ length (back_step N D a l fwd) = N).
    { split; [|rewrite back_step_length; exact Hf].
      unfold back_step. rewrite rd_insert_eq by lia.
      rewrite for_up_ge by lia. reflexivity. }
    apply (for_down_ind (fun _ t => rd t l = v /\ length t = N)); [lia|exact H1|].
    intros i t Hi [Hv Hl]. split.
    + rewrite back_step_other by lia. exact Hv.
    + rewrite back_step_length. exact Hl.
Qed.

End solve_facts.

(** * The elimination loop *)

Module elim_facts.
Import details solve_facts.

Lemma ix_inj (D i j i' j' : nat) :
  j < D -> j' < D -> ix D i j = ix D i' j' -> i = i' /\ j = j'.
Proof.
  unfold ix. intros Hj Hj' H.
  destruct (lt_eq_lt_dec i i') as [[Hlt|Heq]|Hgt].
  - assert ((i + 1) * D <= i' * D) by (apply Nat.mul_le_mono_r; lia). lia.
  - subst i'. lia.
  - assert ((i' + 1) * D <= i * D) by (apply Nat.mul_le_mono_r; lia). lia.
Qed.

Lemma ix_bound (N D i j : nat) : i < N -> j < D -> ix D i j < N * D.
Proof.
  unfold ix. intros Hi Hj.
  assert ((i + 1) * D <= N * D) by (apply Nat.mul_le_mono_r; lia). lia.
Qed.

(** The cells of an [n] by [n] block stored with stride [D]. *)
Lemma ix_block (N D i j : nat) : i < N -> j < N -> ix D i j < (N - 1) * D + N.
Proof.
  unfold ix. intros Hi Hj.
  assert (i * D <= (N - 1) * D) by (apply Nat.mul_le_mono_r; lia). lia.
Qed.

(** ** Lengths are kept *)

Lemma swap_rows_length n ndim m k a : length (swap_rows n ndim m k a) = length a.
Proof.
  unfold swap_rows. destruct (decide (k <= n)) as [Hle|Hgt].
  - apply (for_up_ind (fun _ t => length t = length a)); [exact Hle|reflexivity|].
    intros j t _ Ht. rewrite !length_insert. exact Ht.
  - rewrite for_up_ge by lia. reflexivity.
Qed.

Lemma eliminate_row_length n ndim anorm pvt k i a :
  length (eliminate_row n ndim anorm pvt k i a) = length a.
Proof.
  unfold eliminate_row. destruct (decide (k + 1 <= n)) as [Hle|Hgt].
  - apply (for_up_ind (fun _ t => length t = length a)); [exact Hle| |].
    + apply length_insert.
    + intros j t _ Ht. destruct (_ <? _)%float; [rewrite length_insert|]; exact Ht.
  - rewrite for_up_ge by lia. apply length_insert.
Qed.

Lemma pivot_phase_length n ndim k a p a' p' pvt :
  pivot_phase n ndim k (a, p) = (a', p', pvt) ->
  length a' = length a /\ length p' = length p.
Proof.
  unfold pivot_phase. simpl.
  destruct (decide (fst (find_pivot n ndim a k) = k)); intros [= <- <- <-].
  - rewrite length_insert. split; reflexivity.
  - rewrite swap_rows_length, !length_insert. split; reflexivity.
Qed.

Lemma elim_step_length n ndim anorm k a p a' p' :
  elim_step n ndim anorm k (a, p) = Next (a', p') \/
  elim_step n ndim anorm k (a, p) = Exit (a', p') ->
  length a' = length a /\ length p' = length p.
Proof.
  unfold elim_step.
  destruct (pivot_phase n ndim k (a, p)) as [[a1 p1] pvt] eqn:Hph.
  apply pivot_phase_length in Hph as [Ha Hp].
  destruct (_ <? _)%float; intros [H|H]; try discriminate; injection H as <- <-.
  - split; [exact Ha|exact Hp].
  - split; [|exact Hp]. rewrite <- Ha.
    destruct (decide (k + 1 <= n)) as [Hle|Hgt].
    + apply (for_up_ind (fun _ t => length t = length a1)); [exact Hle|reflexivity|].
      intros i t _ Ht. rewrite eliminate_row_length. exact Ht.
    + rewrite for_up_ge by lia. reflexivity.
Qed.

Lemma elim_prefix_snoc n ndim a pivot k :
  elim_prefix n ndim a pivot (S k) =
  match elim_prefix n ndim a pivot k with
  | Next ap => elim_step (Z.to_nat n) (Z.to_nat ndim)
                 (norm1 (Z.to_nat n) (Z.to_nat ndim) a) k ap
  | Exit ap => Exit ap
  end.
Proof. unfold elim_prefix. apply for_until_snoc. Qed.

Lemma elim_prefix_length n ndim a pivot k ak pk :
  elim_prefix n ndim a pivot k = Next (ak, pk) ->
  length ak = length a /\ length pk = length pivot.
Proof.
  revert ak pk. induction k as [|k IH]; intros ak pk.
  - unfold elim_prefix. simpl. intros [= <- <-]. rewrite length_insert. split; reflexivity.
  - rewrite elim_prefix_snoc.
    destruct (elim_prefix n ndim a pivot k) as [[a1 p1]|[a1 p1]]; [|discriminate].
    intros H. destruct (IH a1 p1 eq_refl) as [Ha Hp].
    destruct (elim_step_length _ _ _ _ _ _ _ _ (or_introl H)) as [Ha' Hp'].
    split; congruence.
Qed.

(** ** The pivot search *)

Lemma find_pivot_spec (n ndim : nat) (a : list float) (k : nat) :
  k < n ->
  let m := fst (find_pivot n ndim a k) in
  k <= m < n /\
  snd (find_pivot n ndim a k) = abs (rd a (ix ndim m k)) /\
  (forall i, k <= i < n ->
     (abs (rd a (ix ndim m k)) <? abs (rd a (ix ndim i k)))%float = false) /\
  (forall i, k <= i < m ->
     (abs (rd a (ix ndim m k)) <=? abs (rd a (ix ndim i k)))%float = false).
Proof.
  intros Hk. unfold find_pivot.
  apply (for_up_ind
           (fun i mp => (k <= fst mp < i) /\
                        snd mp = abs (rd a (ix ndim (fst mp) k)) /\
                        (forall i', k <= i' < i ->
                           (abs (rd a (ix ndim (fst mp) k)) <? abs (rd a (ix ndim i' k)))%float
                           = false) /\
                        (forall i', k <= i' < fst mp ->
                           (abs (rd a (ix ndim (fst mp) k)) <=? abs (rd a (ix ndim i' k)))%float
                           = false))); [lia| |].
  - simpl. split; [lia|]. split; [reflexivity|]. split.
    + intros i' Hi'. replace i' with k by lia. apply float_order.ltb_irrefl.
    + intros i' Hi'. lia.
  - intros i [m pvt] Hi (Hm & Hpvt & Hmax & Hfirst). simpl in *.
    destruct (pvt <? abs (rd a (ix ndim i k)))%float eqn:Hlt; simpl.
    + split; [lia|]. split; [reflexivity|]. split.
      * intros i' Hi'. destruct (decide (i' = i)) as [->|Hne].
        -- apply float_order.ltb_irrefl.
        -- destruct (abs (rd a (ix ndim i k)) <? abs (rd a (ix ndim i' k)))%float eqn:Hlt2;
             [|reflexivity].
           rewrite <- (Hmax i') by lia. rewrite <- Hpvt.
           symmetry. eapply float_order.ltb_trans; [exact Hlt|exact Hlt2].
      * intros i' Hi'.
        destruct (abs (rd a (ix ndim i k)) <=? abs (rd a (ix ndim i' k)))%float eqn:Hle;
          [|reflexivity].
        rewrite <- (Hmax i') by lia. rewrite <- Hpvt.
        symmetry. eapply float_order.ltb_leb_trans; [exact Hlt|exact Hle].
    + split; [lia|]. split; [exact Hpvt|]. split.
      * intros i' Hi'. destruct (decide (i' = i)) as [->|Hne].
        -- rewrite <- Hpvt. exact Hlt.
        -- apply Hmax. lia.
      * exact Hfirst.
Qed.

(** ** The interchange *)

Lemma swap_rows_spec (n ndim m k : nat) (a : list float) :
  k <= n -> n <= ndim -> m < n -> k < n -> m <> k -> (n - 1) * ndim + n <= length a ->
  let a' := swap_rows n ndim m k a in
  (forall j, k <= j < n ->
     rd a' (ix ndim k j) = rd a (ix ndim m j) /\
     rd a' (ix ndim m j) = rd a (ix ndim k j)) /\
  (forall p, (forall j, k <= j < n -> p <> ix ndim k j /\ p <> ix ndim m j) ->
     rd a' p = rd a p).
Proof.
  intros Hkn Hnd Hm Hk Hmk Hlen. unfold swap_rows.
  apply (for_up_ind
           (fun c t =>
              length t = length a /\
              (forall j, k <= j < c ->
                 rd t (ix ndim k j) = rd a (ix ndim m j) /\
                 rd t (ix ndim m j) = rd a (ix ndim k j)) /\
              (forall p, (forall j, k <= j < c -> p <> ix ndim k j /\ p <> ix ndim m j) ->
                 rd t p = rd a p))); [exact Hkn| |].
  - split; [reflexivity|]. split; [intros j Hj; lia|]. intros p _. reflexivity.
  - intros c t Hc (Hl & Hsw & Hrest).
    assert (Hkc : ix ndim k c < length t) by (rewrite Hl; pose proof (ix_block n ndim k c); lia).
    assert (Hmc : ix ndim m c < length t) by (rewrite Hl; pose proof (ix_block n ndim m c); lia).
    assert (Hne : ix ndim m c <> ix ndim k c).
    { intros E. apply ix_inj in E; lia. }
    assert (Hoff : forall i j, i < n -> k <= j < c -> (i = k \/ i = m) ->
                               ix ndim i j <> ix ndim k c /\ ix ndim i j <> ix ndim m c).
    { intros i j Hi Hj _. split; intros E; apply ix_inj in E; lia. }
    assert (Htk : rd t (ix ndim k c) = rd a (ix ndim k c)).
    { apply Hrest. intros j Hj. split; intros E; apply ix_inj in E; lia. }
    assert (Htm : rd t (ix ndim m c) = rd a (ix ndim m c)).
    { apply Hrest. intros j Hj. split; intros E; apply ix_inj in E; lia. }
    split; [rewrite !length_insert; exact Hl|]. split.
    + intros j Hj. destruct (decide (j = c)) as [->|Hjc].
      * split.
        -- rewrite rd_insert_eq by (rewrite length_insert; exact Hkc). exact Htm.
        -- rewrite rd_insert_ne by congruence.
           rewrite rd_insert_eq by exact Hmc. exact Htk.
      * destruct (Hoff k j ltac:(lia) ltac:(lia) (or_introl eq_refl)) as [E1 E2].
        destruct (Hoff m j ltac:(lia) ltac:(lia) (or_intror eq_refl)) as [E3 E4].
        rewrite !rd_insert_ne by congruence. apply Hsw. lia.
    + intros p Hp. destruct (Hp c ltac:(lia)) as [E1 E2].
      rewrite !rd_insert_ne by congruence. apply Hrest.
      intros j Hj. apply Hp. lia.
Qed.

(** ** The pivot vector *)

Lemma pivot_phase_pivot (n ndim k : nat) (a : list float) (p : list Z) :
  k < n - 1 -> n <= length p ->
  let m := fst (find_pivot n ndim a k) in
  let p' := snd (fst (pivot_phase n ndim k (a, p))) in
  p' !!! k = Z.of_nat m /\
  p' !!! (n - 1)%nat = (if decide (m = k) then p !!! (n - 1)%nat else - p !!! (n - 1)%nat)%Z.
Proof.
  intros Hk Hlen m p'. unfold p', pivot_phase. simpl. fold m.
  destruct (decide (m = k)) as [E|E]; simpl.
  - split.
    + apply list_lookup_total_insert_eq. lia.
    + apply list_lookup_total_insert_ne. lia.
  - split.
    + rewrite list_lookup_total_insert_ne by lia.
      apply list_lookup_total_insert_eq. lia.
    + rewrite list_lookup_total_insert_eq by (rewrite length_insert; lia).
      rewrite list_lookup_total_insert_ne by lia. reflexivity.
Qed.

Lemma elim_step_pivot_phase n ndim anorm k ap ap' :
  elim_step n ndim anorm k ap = Next ap' ->
  snd ap' = snd (fst (pivot_phase n ndim k ap)).
Proof.
  unfold elim_step. destruct (pivot_phase n ndim k ap) as [[a1 p1] pvt].
  destruct (_ <? _)%float; [discriminate|]. intros [= <-]. reflexivity.
Qed.

Lemma interchanges_S n ndim a pivot k ak pk :
  elim_prefix n ndim a pivot k = Next (ak, pk) ->
  interchanges n ndim a pivot (S k) =
  interchanges n ndim a pivot k +
  (if decide (fst (find_pivot (Z.to_nat n) (Z.to_nat ndim) ak k) = k) then 0 else 1).
Proof. intros H. simpl. rewrite H. reflexivity. Qed.

(** When pass [k] is reached, [pivot[n-1]] is the parity of the
    interchanges made so far. *)
Lemma elim_prefix_parity (n ndim : Z) (a : list float) (pivot : list Z) (k : nat) ak pk :
  (2 <= n)%Z -> Z.to_nat n <= length pivot -> k <= Z.to_nat n - 1 ->
  elim_prefix n ndim a pivot k = Next (ak, pk) ->
  pk !!! (Z.to_nat n - 1)%nat = ((-1) ^ Z.of_nat (interchanges n ndim a pivot k))%Z.
Proof.
  intros Hn Hlen. revert ak pk. induction k as [|k IH]; intros ak pk Hk.
  - unfold elim_prefix. simpl. intros [= <- <-].
    apply list_lookup_total_insert_eq. lia.
  - rewrite elim_prefix_snoc.
    destruct (elim_prefix n ndim a pivot k) as [[a1 p1]|[a1 p1]] eqn:Hpre; [|discriminate].
    intros Hstep. apply elim_step_pivot_phase in Hstep. simpl in Hstep. subst pk.
    destruct (elim_prefix_length _ _ _ _ _ _ _ Hpre) as [_ Hp1].
    destruct (pivot_phase_pivot (Z.to_nat n) (Z.to_nat ndim) k a1 p1
                ltac:(lia) ltac:(lia)) as [_ Hpar].
    rewrite Hpar, (IH a1 p1 ltac:(lia) eq_refl), (interchanges_S _ _ _ _ _ _ _ Hpre).
    destruct (decide _); [rewrite Nat.add_0_r; reflexivity|].
    rewrite Nat.add_1_r, Nat2Z.inj_succ, Z.pow_succ_r by lia. lia.
Qed.

Lemma pow_minus_one (c : nat) : ((-1) ^ Z.of_nat c = 1 \/ (-1) ^ Z.of_nat c = -1)%Z.
Proof.
  induction c as [|c IH]; [left; reflexivity|].
  rewrite Nat2Z.inj_succ, Z.pow_succ_r by lia. lia.
Qed.

Lemma pivot_phase_other (n ndim k : nat) (a : list float) (p : list Z) (j : nat) :
  j <> k -> j <> n - 1 ->
  snd (fst (pivot_phase n ndim k (a, p))) !!! j = p !!! j.
Proof.
  intros Hk Hn. unfold pivot_phase. simpl.
  destruct (decide (fst (find_pivot n ndim a k) = k)); simpl;
    rewrite !list_lookup_total_insert_ne by congruence; reflexivity.
Qed.

(** The entries recorded by the passes made are rows of the matrix. *)
Lemma elim_prefix_pivots (n ndim : Z) (a : list float) (pivot : list Z) (k : nat) ak pk :
  (2 <= n)%Z -> Z.to_nat n <= length pivot -> k <= Z.to_nat n - 1 ->
  elim_prefix n ndim a pivot k = Next (ak, pk) ->
  forall j, j < k -> (Z.of_nat j <= pk !!! j < n)%Z.
Proof.
  intros Hn Hlen. revert ak pk. induction k as [|k IH]; intros ak pk Hk; [intros _ j Hj; lia|].
  rewrite elim_prefix_snoc.
  destruct (elim_prefix n ndim a pivot k) as [[a1 p1]|[a1 p1]] eqn:Hpre; [|discriminate].
  intros Hstep j Hj. apply elim_step_pivot_phase in Hstep. simpl in Hstep. subst pk.
  destruct (elim_prefix_length _ _ _ _ _ _ _ Hpre) as [_ Hp1].
  destruct (decide (j = k)) as [->|Hne].
  - destruct (pivot_phase_pivot (Z.to_nat n) (Z.to_nat ndim) k a1 p1
                ltac:(lia) ltac:(lia)) as [Hrec _].
    rewrite Hrec.
    destruct (find_pivot_spec (Z.to_nat n) (Z.to_nat ndim) a1 k ltac:(lia)) as (Hm & _).
    lia.
  - rewrite pivot_phase_other by lia. apply (IH a1 p1); [lia|reflexivity|lia].
Qed.

Lemma pivots_in_range_intro (n : nat) (pivot : list Z) :
  (forall j, j < n - 1 -> (0 <= pivot !!! j < Z.of_nat n)%Z) ->
  pivots_in_range n pivot = true.
Proof.
  intros H. unfold pivots_in_range. apply forallb_forall. intros j Hj.
  apply in_seq in Hj. specialize (H j ltac:(lia)).
  apply andb_true_iff. rewrite Z.leb_le, Z.ltb_lt. exact H.
Qed.

(** A factorization reported as successful has recorded a row for every
    pass. *)
Lemma decomp_ok_pivots (n ndim : Z) (work : option (list float)) (a : list float)
    (c : float) (pivot : list Z) (f : Z) :
  Z.to_nat n <= length pivot ->
  m_flag (decomp n ndim work (Mem (Some a) c (Some pivot) f)) = 0%Z ->
  pivots_in_range (Z.to_nat n)
    (default [] (m_pivot (decomp n ndim work (Mem (Some a) c (Some pivot) f)))) = true.
Proof.
  intros Hlen. unfold decomp. simpl.
  destruct ((n <? 1)%Z || (ndim <? n)%Z) eqn:E; [simpl; discriminate|].
  apply orb_false_iff in E. rewrite !Z.ltb_ge in E.
  destruct (n =? 1)%Z eqn:E1.
  { apply Z.eqb_eq in E1. subst n. intros _.
    destruct (rd a 0 =? 0)%float; reflexivity. }
  apply Z.eqb_neq in E1.
  destruct work as [w|]; [|simpl; discriminate].
  fold (elim_prefix n ndim a pivot (Z.to_nat n - 1)).
  destruct (elim_prefix n ndim a pivot (Z.to_nat n - 1)) as [[a1 p1]|[a1 p1]] eqn:Hel;
    [|simpl; discriminate].
  assert (Hr : pivots_in_range (Z.to_nat n) p1 = true).
  { apply pivots_in_range_intro. intros j Hj.
    pose proof (elim_prefix_pivots n ndim a pivot (Z.to_nat n - 1) a1 p1
                  ltac:(lia) Hlen ltac:(lia) Hel j Hj). lia. }
  destruct (for_until (seq 0 (Z.to_nat n)) _ w) as [w1|w1]; intros _; exact Hr.
Qed.

End elim_facts.

(** * The identity matrix *)

Module identity_facts.
Import details solve_facts elim_facts.

(** ** Blocks given by their entries *)

Lemma vec_length n f : length (vec n f) = n.
Proof. unfold vec. rewrite length_fmap, length_seq. reflexivity. Qed.

Lemma vec_lookup n f i : i < n -> vec n f !! i = Some (f i).
Proof.
  intros H. unfold vec. rewrite list_lookup_fmap, lookup_seq_lt by exact H. reflexivity.
Qed.

Lemma vec_rd n f i : i < n -> rd (vec n f) i = f i.
Proof.
  intros H. unfold rd. apply list_lookup_total_correct. apply vec_lookup. exact H.
Qed.

(** A block of [n] cells is determined by what is read from it. *)
Lemma vec_eq n f (t : list float) :
  length t = n -> (forall i, i < n -> rd t i = f i) -> t = vec n f.
Proof.
  intros Hl Hrd. apply list_eq. intros i.
  destruct (decide (i < n)) as [Hi|Hi].
  - rewrite vec_lookup by exact Hi. rewrite <- (Hrd i Hi).
    apply list_lookup_lookup_total_lt. lia.
  - rewrite !lookup_ge_None_2; [reflexivity|rewrite vec_length; lia|lia].
Qed.

Lemma vec_insert_id n f i v : f i = v -> <[i := v]> (vec n f) = vec n f.
Proof.
  intros <-. destruct (decide (i < n)) as [Hi|Hi].
  - apply list_insert_id. apply vec_lookup. exact Hi.
  - apply list_insert_ge. rewrite vec_length. lia.
Qed.

Lemma tab_length n f : length (tab n f) = n * n.
Proof. unfold tab. rewrite length_fmap, length_seq. reflexivity. Qed.

Lemma ix_div n i j : j < n -> ix n i j / n = i.
Proof.
  intros H. unfold ix. rewrite Nat.div_add_l by lia.
  rewrite Nat.div_small by exact H. lia.
Qed.

Lemma ix_mod n i j : j < n -> ix n i j mod n = j.
Proof.
  intros H. unfold ix. rewrite Nat.add_comm, Nat.Div0.mod_add.
  apply Nat.mod_small. exact H.
Qed.

Lemma tab_lookup n f i j : i < n -> j < n -> tab n f !! ix n i j = Some (f i j).
Proof.
  intros Hi Hj. unfold tab.
  rewrite list_lookup_fmap, lookup_seq_lt by (apply ix_bound; assumption).
  simpl. rewrite ix_div, ix_mod by exact Hj. reflexivity.
Qed.

Lemma tab_rd n f i j : i < n -> j < n -> rd (tab n f) (ix n i j) = f i j.
Proof.
  intros Hi Hj. unfold rd. apply list_lookup_total_correct. apply tab_lookup; assumption.
Qed.

Lemma ix_decompose n p : p < n * n -> p = ix n (p / n) (p mod n) /\ p / n < n /\ p mod n < n.
Proof.
  intros Hp. assert (n <> 0) by lia. unfold ix. split; [|split].
  - rewrite (Nat.div_mod_eq p n) at 1. lia.
  - apply Nat.Div0.div_lt_upper_bound. lia.
  - apply Nat.mod_upper_bound. lia.
Qed.

Lemma tab_ext n f g :
  (forall i j, i < n -> j < n -> f i j = g i j) -> tab n f = tab n g.
Proof.
  intros H. unfold tab. apply list_fmap_ext. intros k p Hk.
  apply lookup_seq in Hk as [-> Hk]. simpl.
  destruct (ix_decompose n k Hk) as (_ & H1 & H2). apply H; assumption.
Qed.

(** A row-major block of [n * n] cells is determined by what is read from it. *)
Lemma tab_eq n f (t : list float) :
  length t = n * n ->
  (forall i j, i < n -> j < n -> rd t (ix n i j) = f i j) ->
  t = tab n f.
Proof.
  intros Hl Hrd. apply list_eq. intros p.
  destruct (decide (p < n * n)) as [Hp|Hp].
  - destruct (ix_decompose n p Hp) as (E & H1 & H2).
    rewrite E at 1 2. rewrite tab_lookup by assumption.
    rewrite <- (Hrd _ _ H1 H2). apply list_lookup_lookup_total_lt.
    rewrite <- E. lia.
  - rewrite !lookup_ge_None_2; [reflexivity|rewrite tab_length; lia|lia].
Qed.

(** Writing one cell of such a block. *)
Lemma tab_insert n f i j v :
  i < n -> j < n ->
  <[ix n i j := v]> (tab n f)
  = tab n (fun r c => if decide (r = i /\ c = j) then v else f r c).
Proof.
  intros Hi Hj. apply tab_eq.
  - rewrite length_insert. apply tab_length.
  - intros r c Hr Hc. destruct (decide (r = i /\ c = j)) as [[-> ->]|Hne].
    + apply rd_insert_eq. rewrite tab_length. apply ix_bound; assumption.
    + rewrite rd_insert_ne.
      * apply tab_rd; assumption.
      * intros E. apply ix_inj in E; [|assumption..]. destruct E. subst. tauto.
Qed.

(** The rows of the identity, laid out one after the other. *)
Lemma concat_rows (n r : nat) (f : nat -> nat -> float) :
  0 < n ->
  concat ((fun i => f i <$> seq 0 n) <$> seq 0 r)
  = (fun p => f (p / n) (p mod n)) <$> seq 0 (r * n).
Proof.
  intros Hn. induction r as [|r IH]; [reflexivity|].
  rewrite seq_S, fmap_app, concat_app, IH. simpl.
  replace (n + r * n) with (r * n + n) by lia.
  rewrite seq_app, fmap_app, app_nil_r. f_equal. simpl.
  apply list_eq. intros j. rewrite !list_lookup_fmap.
  destruct (decide (j < n)) as [Hj|Hj].
  - rewrite !lookup_seq_lt by exact Hj. simpl.
    change (r * n + j) with (ix n r j). rewrite ix_div, ix_mod by exact Hj. reflexivity.
  - rewrite !lookup_seq_ge by lia. reflexivity.
Qed.

Lemma concat_identity n : 0 < n -> concat (identity n) = tab n unit_entry.
Proof. intros Hn. unfold identity, tab. apply concat_rows. exact Hn. Qed.

Lemma identity_length n : length (identity n) = n.
Proof. unfold identity. rewrite length_fmap, length_seq. reflexivity. Qed.

Lemma identity_square n : square (identity n).
Proof.
  unfold square. rewrite identity_length. unfold identity.
  apply Forall_fmap, Forall_forall. intros i _. simpl.
  rewrite length_fmap, length_seq. reflexivity.
Qed.

(** ** The norm of the identity *)

Local Ltac entry_cases :=
  unfold elim_entry, unit_entry, last_minus_one;
  repeat case_decide; try reflexivity; try (exfalso; lia).

Lemma for_up_skip {S : Type} lo hi (body : nat -> S -> S) (s : S) :
  (forall i t, lo <= i < hi -> body i t = t) -> for_up lo hi body s = s.
Proof.
  intros H. destruct (decide (lo <= hi)) as [Hle|Hgt].
  - apply (for_up_ind (fun _ t => t = s)); [exact Hle|reflexivity|].
    intros i t Hi ->. apply H. exact Hi.
  - apply for_up_ge. lia.
Qed.

Lemma col_sum_unit n j : j < n -> col_sum n n (tab n unit_entry) j = 1%float.
Proof.
  intros Hj. unfold col_sum.
  match goal with
  | |- ?loop = _ => assert (H : loop = if decide (j < n) then 1%float else 0%float)
  end.
  { pose (P := fun (i : nat) (t : float) => t = if decide (j < i) then 1%float else 0%float).
    apply (for_up_ind P); unfold P; [lia| |].
    - case_decide; [lia|reflexivity].
    - intros i t Hi ->. rewrite tab_rd by lia. entry_cases. }
  rewrite H. case_decide; [reflexivity|lia].
Qed.

Lemma norm1_unit n : 1 <= n -> norm1 n n (tab n unit_entry) = 1%float.
Proof.
  intros Hn. unfold norm1.
  match goal with
  | |- ?loop = _ => assert (H : loop = if decide (0 < n) then 1%float else 0%float)
  end.
  { pose (P := fun (j : nat) (t : float) => t = if decide (0 < j) then 1%float else 0%float).
    apply (for_up_ind P); unfold P; [lia| |].
    - reflexivity.
    - intros j t Hj ->. cbv zeta. rewrite col_sum_unit by lia.
      repeat case_decide; try reflexivity; exfalso; lia. }
  rewrite H. case_decide; [reflexivity|lia].
Qed.

Lemma tab_unit_elim n : tab n unit_entry = tab n (elim_entry 0 0).
Proof. apply tab_ext. intros i j _ _. entry_cases. Qed.

(** ** One pass of the elimination on the identity *)

Lemma find_pivot_identity n k :
  k < n -> find_pivot n n (tab n (elim_entry k 0)) k = (k, 1%float).
Proof.
  intros Hk. unfold find_pivot.
  apply (for_up_ind (fun _ mp => mp = (k, 1%float))); [lia| |].
  - rewrite tab_rd by lia. f_equal. entry_cases.
  - intros i mp Hi ->. simpl. rewrite tab_rd by lia.
    replace (elim_entry k 0 i k) with 0%float by entry_cases. reflexivity.
Qed.

Lemma eliminate_row_identity n k i :
  k < i < n ->
  eliminate_row n n 1 1 k i (tab n (elim_entry k i)) = tab n (elim_entry k (S i)).
Proof.
  intros Hi. unfold eliminate_row. rewrite tab_rd by lia.
  replace (elim_entry k i i k) with 0%float by entry_cases.
  change (- (0 / 1))%float with (-0)%float.
  change (1 * EPSILON <? abs (-0))%float with false. cbv iota.
  rewrite for_up_skip by reflexivity.
  rewrite tab_insert by lia. apply tab_ext. intros r c Hr Hc.
  unfold elim_entry. repeat case_decide; try reflexivity; exfalso; lia.
Qed.

Lemma eliminate_rows_identity n k :
  k < n ->
  for_up (k + 1) n (eliminate_row n n 1 1 k) (tab n (elim_entry k 0))
  = tab n (elim_entry (S k) 0).
Proof.
  intros Hk.
  assert (H : for_up (k + 1) n (eliminate_row n n 1 1 k) (tab n (elim_entry k 0))
              = tab n (elim_entry k n)).
  { apply (for_up_ind (fun i t => t = tab n (elim_entry k i))); [lia| |].
    - apply tab_ext. intros r c Hr Hc. entry_cases.
    - intros i t Hi ->. apply eliminate_row_identity. lia. }
  rewrite H. apply tab_ext. intros r c Hr Hc. entry_cases.
Qed.

Lemma elim_step_identity n k (p : list Z) :
  k < n - 1 ->
  elim_step n n 1 k (tab n (elim_entry k 0), p)
  = Next (tab n (elim_entry (S k) 0), <[k := Z.of_nat k]> p).
Proof.
  intros Hk. unfold elim_step, pivot_phase. simpl.
  rewrite find_pivot_identity by lia. simpl.
  destruct (decide (k = k)) as [_|]; [|congruence].
  rewrite tab_rd by lia.
  replace (elim_entry k 0 k k) with 1%float by entry_cases.
  change (abs 1 <? 1 * EPSILON)%float with false. cbv iota.
  rewrite eliminate_rows_identity by lia. reflexivity.
Qed.

Lemma identity_pivot_S k p :
  identity_pivot (S k) p = <[k := Z.of_nat k]> (identity_pivot k p).
Proof. unfold identity_pivot. rewrite for_up_S by lia. reflexivity. Qed.

Lemma identity_pivot_length k p : length (identity_pivot k p) = length p.
Proof.
  induction k as [|k IH]; [reflexivity|].
  rewrite identity_pivot_S, length_insert. exact IH.
Qed.

Lemma identity_pivot_lookup k (p : list Z) j :
  k <= length p ->
  identity_pivot k p !!! j = if decide (j < k) then Z.of_nat j else p !!! j.
Proof.
  intros Hk. induction k as [|k IH]; [reflexivity|].
  rewrite identity_pivot_S. destruct (decide (j = k)) as [->|Hne].
  - rewrite list_lookup_total_insert_eq by (rewrite identity_pivot_length; lia).
    destruct (decide (k < S k)); [reflexivity|lia].
  - rewrite list_lookup_total_insert_ne by congruence. rewrite IH by lia.
    repeat case_decide; try reflexivity; lia.
Qed.

(** The whole elimination on the identity. *)
Lemma elimination_identity n k (p : list Z) :
  k <= n - 1 ->
  for_until (seq 0 k) (elim_step n n 1) (tab n unit_entry, p)
  = Next (tab n (elim_entry k 0), identity_pivot k p).
Proof.
  intros Hk. induction k as [|k IH].
  - simpl. rewrite tab_unit_elim. reflexivity.
  - rewrite for_until_snoc, IH by lia. rewrite identity_pivot_S.
    apply elim_step_identity. lia.
Qed.

(** ** The condition estimate of the identity *)

(** The completed factor buffer: ones on the diagonal, [-0.0] below, zeros
    above. *)
Lemma factor_entry n i j :
  i < n -> j < n ->
  rd (tab n (elim_entry (n - 1) 0)) (ix n i j)
  = if decide (i = j) then 1%float else if decide (j < i) then (-0)%float else 0%float.
Proof. intros Hi Hj. rewrite tab_rd by assumption. entry_cases. Qed.

Lemma ystep_identity n k (w : list float) :
  k < n -> (forall i, i < k -> rd w i = (-1)%float) ->
  ystep n 1 (tab n (elim_entry (n - 1) 0)) k w = Next (<[k := (-1)%float]> w).
Proof.
  intros Hk Hw. unfold ystep.
  match goal with
  | |- context [for_up 0 k ?body ?s] => assert (Ht : for_up 0 k body s = 0%float)
  end.
  { apply (for_up_ind (fun _ t => t = 0%float)); [lia|reflexivity|].
    intros i t Hi ->. rewrite factor_entry, Hw by lia.
    repeat case_decide; try reflexivity; exfalso; lia. }
  rewrite Ht. cbv zeta. rewrite factor_entry by lia.
  destruct (decide (k = k)) as [_|]; [|congruence]. reflexivity.
Qed.

Lemma yloop_identity n (w : list float) :
  length w = n ->
  for_until (seq 0 n) (ystep n 1 (tab n (elim_entry (n - 1) 0))) w
  = Next (vec n (fun _ => (-1)%float)).
Proof.
  intros Hl.
  assert (H : forall k, k <= n ->
            exists w', for_until (seq 0 k) (ystep n 1 (tab n (elim_entry (n - 1) 0))) w = Next w'
                       /\ length w' = n /\ forall i, i < k -> rd w' i = (-1)%float).
  { induction k as [|k IH]; intros Hk.
    - exists w. split; [reflexivity|]. split; [exact Hl|]. intros i Hi. lia.
    - destruct (IH ltac:(lia)) as (w' & Hrun & Hl' & Hw').
      exists (<[k := (-1)%float]> w'). split; [|split].
      + rewrite for_until_snoc, Hrun. apply ystep_identity; [lia|exact Hw'].
      + rewrite length_insert. exact Hl'.
      + intros i Hi. destruct (decide (i = k)) as [->|Hne].
        * apply rd_insert_eq. lia.
        * rewrite rd_insert_ne by congruence. apply Hw'. lia. }
  destruct (H n ltac:(lia)) as (w' & Hrun & Hl' & Hw').
  rewrite Hrun. f_equal. apply vec_eq; assumption.
Qed.

Lemma wloop_identity n (p : list Z) :
  1 <= n -> n - 1 <= length p ->
  for_down 0 (n - 1)
    (wstep n n (tab n (elim_entry (n - 1) 0)) (identity_pivot (n - 1) p))
    (vec n (fun _ => (-1)%float))
  = vec n (last_minus_one n).
Proof.
  intros Hn Hp.
  match goal with
  | |- ?loop = _ =>
      assert (H : length loop = n /\ rd loop (n - 1) = (-1)%float /\
                  forall j, 0 <= j < n - 1 -> rd loop j = 0%float)
  end.
  { apply (for_down_ind
             (fun i t => length t = n /\ rd t (n - 1) = (-1)%float /\
                         forall j, i <= j < n - 1 -> rd t j = 0%float)); [lia| |].
    - split; [apply vec_length|]. split; [apply vec_rd; lia|]. intros j Hj. lia.
    - intros i t Hi (Hl & Hlast & Hz). unfold wstep.
      match goal with
      | |- context [for_up (i + 1) n ?body ?s] =>
          assert (Ht : for_up (i + 1) n body s = 0%float)
      end.
      { apply (for_up_ind (fun _ acc => acc = 0%float)); [lia|reflexivity|].
        intros r acc Hr ->. rewrite factor_entry by lia.
        destruct (decide (r = i)) as [|_]; [lia|].
        destruct (decide (i < r)) as [_|]; [|lia].
        destruct (decide (r = n - 1)) as [->|Hne].
        - rewrite Hlast. reflexivity.
        - rewrite Hz by lia. reflexivity. }
      rewrite Ht. cbv zeta. rewrite identity_pivot_lookup by lia.
      destruct (decide (i < n - 1)) as [_|]; [|lia].
      destruct (decide (Z.of_nat i = Z.of_nat i)) as [_|]; [|congruence].
      split; [rewrite length_insert; exact Hl|]. split.
      + rewrite rd_insert_ne by lia. exact Hlast.
      + intros j Hj. destruct (decide (j = i)) as [->|Hne].
        * apply rd_insert_eq. lia.
        * rewrite rd_insert_ne by congruence. apply Hz. lia. }
  destruct H as (Hl & Hlast & Hz). apply vec_eq; [exact Hl|].
  intros i Hi. unfold last_minus_one. case_decide.
  - subst i. exact Hlast.
  - apply Hz. lia.
Qed.

Lemma sum_abs_last n : 1 <= n -> sum_abs n (vec n (last_minus_one n)) = 1%float.
Proof.
  intros Hn. unfold sum_abs.
  match goal with
  | |- ?loop = _ => assert (H : loop = if decide (n <= n - 1) then 0%float else 1%float)
  end.
  { pose (P := fun (i : nat) (t : float) =>
                 t = if decide (i <= n - 1) then 0%float else 1%float).
    apply (for_up_ind P); unfold P; [lia| |].
    - case_decide; [reflexivity|lia].
    - intros i t Hi ->. rewrite vec_rd by lia. entry_cases. }
  rewrite H. case_decide; [lia|reflexivity].
Qed.

Lemma forward_identity n (p : list Z) :
  1 <= n -> n - 1 <= length p ->
  forward_elim n n (tab n (elim_entry (n - 1) 0)) (identity_pivot (n - 1) p)
               (vec n (last_minus_one n))
  = vec n (last_minus_one n).
Proof.
  intros Hn Hp. unfold forward_elim.
  apply (for_up_ind (fun _ t => t = vec n (last_minus_one n))); [lia|reflexivity|].
  intros k t Hk ->. unfold forward_step.
  rewrite identity_pivot_lookup by lia.
  destruct (decide (k < n - 1)) as [_|]; [|lia].
  rewrite Nat2Z.id. rewrite !vec_insert_id by (rewrite vec_rd by lia; reflexivity).
  apply (for_up_ind (fun _ t => t = vec n (last_minus_one n))); [lia|reflexivity|].
  intros i t Hi ->. apply vec_insert_id.
  rewrite !vec_rd, factor_entry by lia. entry_cases.
Qed.

Lemma back_identity n :
  1 <= n ->
  for_down 0 n (back_step n n (tab n (elim_entry (n - 1) 0))) (vec n (last_minus_one n))
  = vec n (last_minus_one n).
Proof.
  intros Hn.
  apply (for_down_ind (fun _ t => t = vec n (last_minus_one n))); [lia|reflexivity|].
  intros k t Hk ->. unfold back_step.
  match goal with
  | |- context [for_up (k + 1) n ?body ?s] =>
      assert (Ht : for_up (k + 1) n body s = last_minus_one n k)
  end.
  { apply (for_up_ind (fun _ acc => acc = last_minus_one n k)); [lia|apply vec_rd; lia|].
    intros j acc Hj ->. rewrite vec_rd, factor_entry by lia. entry_cases. }
  rewrite Ht. apply vec_insert_id. rewrite factor_entry by lia. entry_cases.
Qed.

Lemma solve_identity (n : nat) (p : list Z) :
  2 <= n -> n - 1 <= length p ->
  solve (Z.of_nat n) (Z.of_nat n) (tab n (elim_entry (n - 1) 0))
        (vec n (last_minus_one n)) (identity_pivot (n - 1) p)
  = vec n (last_minus_one n).
Proof.
  intros Hn Hp. unfold solve.
  replace (Z.of_nat n =? 1)%Z with false by (symmetry; apply Z.eqb_neq; lia).
  rewrite Nat2Z.id. rewrite forward_identity by lia. apply back_identity. lia.
Qed.

Lemma estimate_identity (n : nat) (p : list Z) :
  2 <= n -> n - 1 <= length p ->
  estimate (Z.of_nat n) (Z.of_nat n) 1 (tab n (elim_entry (n - 1) 0))
           (identity_pivot (n - 1) p) (vec n (fun _ => (-1)%float))
  = 1%float.
Proof.
  intros Hn Hp. unfold estimate. rewrite Nat2Z.id.
  rewrite wloop_identity by lia. cbv zeta.
  rewrite solve_identity by lia. rewrite sum_abs_last by lia. reflexivity.
Qed.

(** [decomp] on the identity of order at least two. *)
Lemma decomp_identity (n : nat) (w : list float) (p : list Z) (c : float) (f : Z) :
  2 <= n -> length w = n -> n <= length p ->
  decomp (Z.of_nat n) (Z.of_nat n) (Some w) (Mem (Some (tab n unit_entry)) c (Some p) f)
  = Mem (Some (tab n (elim_entry (n - 1) 0))) 1%float
        (Some (identity_pivot (n - 1) (<[(n - 1)%nat := 1%Z]> p))) 0.
Proof.
  intros Hn Hw Hp. rewrite decomp_facts.decomp_unfold by lia. cbv zeta.
  rewrite Nat2Z.id. rewrite norm1_unit by lia.
  rewrite elimination_identity by lia.
  rewrite yloop_identity by exact Hw.
  rewrite estimate_identity by (rewrite ?length_insert; lia).
  reflexivity.
Qed.

End identity_facts.

(** * What [Decomp::operator()] hands to the solver *)

Section DecompResult.
Variable junk_double : block -> nat -> float.
Variable junk_int : nat -> Z.
Variable malloc_fails : bool.

(** Whenever [Decomp::operator()] returns, the object holds what
    [details::decomp] left in a block of [n * n] doubles and one of [n * n]
    ints, [n] being the number of rows. *)
Lemma Decomp_call_returns (matrix : list (list float)) (self dec : Decomp) :
  Decomp_call junk_double junk_int malloc_fails matrix self = Returns dec ->
  let n := length matrix in
  1 <= n /\
  exists data : list float,
    let m := details.decomp (Z.of_nat n) (Z.of_nat n) (malloc_double junk_double malloc_fails n)
               (details.Mem (Some data) (cond_ self)
                            (Some (new_int junk_int (n * n))) (flag_ self)) in
    dec = MkDecomp (details.m_cond m) (Z.of_nat n) (details.m_a m)
                   (details.m_pivot m) (details.m_flag m).
Proof.
  unfold Decomp_call. destruct matrix as [|row0 rest]; [discriminate|].
  destruct (decide _); [|discriminate].
  destruct (fill _ _) as [data|]; [|discriminate].
  intros [= <-]. split; [simpl; lia|]. exists data. reflexivity.
Qed.

(** After a factorization with status OK every pivot entry the solver
    reads addresses a cell of the right-hand side. *)
Lemma Decomp_call_ok_pivots (matrix : list (list float)) (self dec : Decomp) :
  Decomp_call junk_double junk_int malloc_fails matrix self = Returns dec ->
  flag_ dec = OK ->
  details.pivots_in_range (length matrix) (default [] (pivot_ dec)) = true.
Proof.
  intros Hcall Hok. apply Decomp_call_returns in Hcall as [Hn [data ->]].
  simpl in *. 
  pose proof (elim_facts.decomp_ok_pivots (Z.of_nat (length matrix)) (Z.of_nat (length matrix))
                (malloc_double junk_double malloc_fails (length matrix)) data (cond_ self)
                (new_int junk_int (length matrix * length matrix)) (flag_ self)) as H.
  rewrite Nat2Z.id in H. apply H; [|exact Hok].
  rewrite new_int_length. nia.
Qed.

End DecompResult.

(** * The right-hand side, the status flag, and the small orders *)

Section ClassClaims.
Variable junk_double : block -> nat -> float.
Variable junk_int : nat -> Z.
Variable malloc_fails : bool.

Local Abbreviation Decomp_op := (Decomp_call junk_double junk_int malloc_fails).
Local Abbreviation Solve_op := (Solve_call junk_double junk_int malloc_fails).

(** C2: whatever way [Solve::operator()] ends, the caller's vector holds
    afterwards exactly what it held before; and when the factorization
    returns with pivot entries that address cells of the right-hand side (as
    every factorization with status OK does), the operator returns, the
    object works in a block of its own at another address, and the solution
    stays there. *)
Theorem Solve_call_leaves_rhs (A : list (list float)) (rb : loc) (bv : list float)
    (self : Solve) (h : store) :
  h !! rb = Some bv ->
  (forall self' h',
     Solve_op A rb self h = Returns (self', h') \/
     (exists what, Solve_op A rb self h = Throws what (self', h')) ->
     h' !! rb = Some bv) /\
  (forall dec,
     length A = length bv -> owned self rb h ->
     Decomp_op A Decomp_new = Returns dec ->
     details.pivots_in_range (length A) (default [] (pivot_ dec)) = true ->
     exists p h',
       Solve_op A rb self h = Returns (MkSolve (Some p), h') /\
       p <> rb /\ h' !! rb = Some bv /\ is_Some (h' !! p)).
Proof.
  intros Hb. split.
  - intros self' h' H.
    exact (Solve_call_frame junk_double junk_int malloc_fails A rb bv self self' h h' Hb H).
  - intros dec Hlen Hown Hdec Hpiv.
    destruct (Solve_call_runs junk_double junk_int malloc_fails A rb bv self h dec
                Hb Hlen Hown Hdec Hpiv) as [Hp Hrun].
    eexists _, _. split; [exact Hrun|]. split; [exact Hp|]. split.
    + eapply Solve_call_frame; [exact Hb|]. left. exact Hrun.
    + rewrite lookup_insert_eq. eauto.
Qed.

(** C8: order one.  [[0]] is reported singular with condition [1e32]; a
    sole element that does not compare equal to zero gives status OK and
    condition [1.0]; and solving [[5]] x = [10] leaves [2] in the block of
    the solver. *)
Theorem order_one (self : Decomp) (s : Solve) (rb : loc) (h : store) :
  Decomp_op [[0%float]] self
  = Returns (MkDecomp 1.0e+32%float 1 (Some [0%float]) (Some [1%Z]) Singular) /\
  (forall c : float, (c =? 0)%float = false ->
     Decomp_op [[c]] self = Returns (MkDecomp 1%float 1 (Some [c]) (Some [1%Z]) OK)) /\
  (h !! rb = Some [10%float] -> owned s rb h ->
   exists p h',
     Solve_op [[5%float]] rb s h = Returns (MkSolve (Some p), h') /\
     h' !! p = Some [2%float] /\ h' !! rb = Some [10%float]).
Proof.
  split; [reflexivity|]. split.
  - intros c Hc. unfold Decomp_call. simpl. unfold details.decomp. simpl.
    unfold details.rd. simpl. rewrite Hc. reflexivity.
  - intros Hb Hown.
    destruct (Solve_call_runs junk_double junk_int malloc_fails [[5%float]] rb _ s h _
                Hb eq_refl Hown eq_refl eq_refl) as [Hp Hrun].
    eexists _, _. split; [exact Hrun|]. split.
    + rewrite lookup_insert_eq. reflexivity.
    + eapply Solve_call_frame; [exact Hb|]. left. exact Hrun.
Qed.

End ClassClaims.

Section ClassClaimsAllocated.
Variable junk_double : block -> nat -> float.
Variable junk_int : nat -> Z.

Local Abbreviation Decomp_op := (Decomp_call junk_double junk_int false).
Local Abbreviation Solve_op := (Solve_call junk_double junk_int false).

(** C9: for [A = [[0,1],[1,0]]] the pivot search of column 0 selects row 1,
    which is what [permutation[0]] records, and solving against [b = [2,5]]
    leaves exactly [[5, 2]] in the block of the solver. *)
Theorem exchange_matrix (self : Decomp) (s : Solve) (rb : loc) (h : store) :
  fst (details.find_pivot 2 2 [0; 1; 1; 0]%float 0) = 1%nat /\
  Decomp_op [[0; 1]; [1; 0]]%float self
  = Returns (MkDecomp 1%float 2 (Some [1; 0; -0; 1]%float)
                      (Some [1; -1; junk_int 2%nat; junk_int 3%nat]%Z) OK) /\
  (h !! rb = Some [2; 5]%float -> owned s rb h ->
   exists p h',
     Solve_op [[0; 1]; [1; 0]]%float rb s h = Returns (MkSolve (Some p), h') /\
     h' !! p = Some [5; 2]%float /\ h' !! rb = Some [2; 5]%float).
Proof.
  split; [reflexivity|]. split; [reflexivity|].
  intros Hb Hown.
  destruct (Solve_call_runs junk_double junk_int false [[0; 1]; [1; 0]]%float rb _ s h _
              Hb eq_refl Hown eq_refl eq_refl) as [Hp Hrun].
  eexists _, _. split; [exact Hrun|]. split.
  - rewrite lookup_insert_eq. reflexivity.
  - eapply Solve_call_frame; [exact Hb|]. left. exact Hrun.
Qed.

(** C6 (the code at the zero matrix of order two): no pivot test fires, the
    factorization is reported as successful, and the condition estimate is
    NaN, which is neither the sentinel nor at least [1.0]. *)
Theorem zero_matrix_condition (self : Decomp) :
  Decomp_op [[0; 0]; [0; 0]]%float self
  = Returns (MkDecomp nan 2 (Some [0; 0; nan; 0]%float)
                      (Some [0; 1; junk_int 2%nat; junk_int 3%nat]%Z) OK) /\
  (1 <=? nan)%float = false /\ (nan =? 1.0e+32)%float = false.
Proof. split; [reflexivity|]. split; reflexivity. Qed.

End ClassClaimsAllocated.

(** C3 (the code at a ragged matrix): [[1,2],[3]] has two rows and a first
    row of length two, so [Decomp::operator()] does not throw; it allocates,
    copies three values and factors, and the status is not the one of illegal
    input.  With a longer second row the copy loop writes past the block. *)
Theorem ragged_matrix_accepted (junk_double : block -> nat -> float) (junk_int : nat -> Z)
    (malloc_fails : bool) (self : Decomp) :
  (exists d, Decomp_call junk_double junk_int malloc_fails [[1; 2]; [3]]%float self = Returns d
             /\ flag_ d <> ConfigurationError /\ size_ d = 2%Z) /\
  Decomp_call junk_double junk_int malloc_fails [[1; 2]; [3; 4; 5]]%float self = Undefined.
Proof.
  split; [|reflexivity].
  eexists. split; [reflexivity|]. simpl. split; [|reflexivity].
  intros H. apply decomp_facts.decomp_flag_2 in H. lia.
Qed.

(** ** Closed instances *)

Lemma Solve_call_leaves_rhs_witness :
  exists p h',
    Solve_call zero_double zero_int false [[2; 1]; [1; 3]]%float 0%nat Solve_new
               {[ 0%nat := [3; 4]%float ]}
    = Returns (MkSolve (Some p), h') /\
    p <> 0%nat /\ h' !! 0%nat = Some [3; 4]%float /\ is_Some (h' !! p).
Proof.
  assert (Hb : ({[ 0%nat := [3; 4]%float ]} : store) !! 0%nat = Some [3; 4]%float)
    by reflexivity.
  apply (proj2 (Solve_call_leaves_rhs zero_double zero_int false [[2; 1]; [1; 3]]%float
                  0%nat [3; 4]%float Solve_new {[ 0%nat := [3; 4]%float ]} Hb)
           (MkDecomp 2.666666666666667%float 2 (Some [2; 1; -0.5; 2.5]%float)
                     (Some [0; 1; 0; 0]%Z) OK)).
  - reflexivity.
  - exact I.
  - reflexivity.
  - reflexivity.
Defined.

Lemma order_one_witness :
  Decomp_call zero_double zero_int false [[5%float]] Decomp_new
  = Returns (MkDecomp 1%float 1 (Some [5%float]) (Some [1%Z]) OK) /\
  exists p h',
    Solve_call zero_double zero_int false [[5%float]] 0%nat Solve_new {[ 0%nat := [10%float] ]}
    = Returns (MkSolve (Some p), h') /\
    h' !! p = Some [2%float] /\ h' !! 0%nat = Some [10%float].
Proof.
  destruct (order_one zero_double zero_int false Decomp_new Solve_new 0%nat
              {[ 0%nat := [10%float] ]}) as (_ & Hc & Hs).
  split.
  - apply (Hc 5%float). reflexivity.
  - apply Hs; [reflexivity|exact I].
Defined.

Lemma exchange_matrix_witness :
  exists p h',
    Solve_call zero_double zero_int false [[0; 1]; [1; 0]]%float 0%nat Solve_new
               {[ 0%nat := [2; 5]%float ]}
    = Returns (MkSolve (Some p), h') /\
    h' !! p = Some [5; 2]%float /\ h' !! 0%nat = Some [2; 5]%float.
Proof.
  destruct (exchange_matrix zero_double zero_int Decomp_new Solve_new 0%nat
              {[ 0%nat := [2; 5]%float ]}) as (_ & _ & Hs).
  apply Hs; [reflexivity|exact I].
Defined.

(** * The elimination passes *)

(** C4: when the pivot of a pass of the elimination, or a diagonal element
    met by the loop that solves the transposed system, is below
    [norm * EPSILON] in absolute value, [decomp] returns with condition
    [1e32] and status [Singular], and the factor buffer and the pivot vector
    are those of that moment: for the elimination, the buffer after the
    interchange of that pass, with no row eliminated in it.  The buffers are
    as long as the subscripts of the source need them. *)
Theorem singular_exit (n ndim : Z) (a work : list float) (pivot : list Z)
    (c : float) (f : Z) :
  (2 <= n)%Z -> (n <= ndim)%Z ->
  let N := Z.to_nat n in
  let D := Z.to_nat ndim in
  (N - 1) * D + N <= length a -> N <= length pivot -> N <= length work ->
  let anorm := details.norm1 N D a in
  let result := details.decomp n ndim (Some work) (details.Mem (Some a) c (Some pivot) f) in
  (forall (k : nat) ak pk a' p' pvt,
     k < N - 1 ->
     elim_prefix n ndim a pivot k = Next (ak, pk) ->
     details.pivot_phase N D k (ak, pk) = (a', p', pvt) ->
     (abs pvt <? anorm * details.EPSILON)%float = true ->
     result = details.Mem (Some a') 1.0e+32%float (Some p') Singular) /\
  (forall (k : nat) a' p' w,
     k < N ->
     elim_prefix n ndim a pivot (N - 1) = Next (a', p') ->
     for_until (seq 0 k) (details.ystep D anorm a') work = Next w ->
     (abs (details.rd a' (details.ix D k k)) <? anorm * details.EPSILON)%float = true ->
     result = details.Mem (Some a') 1.0e+32%float (Some p') Singular).
Proof.
  intros Hn Hd N D _ _ _ anorm result. unfold result.
  rewrite decomp_facts.decomp_unfold by assumption. cbv zeta.
  fold N D anorm. split.
  - intros k ak pk a' p' pvt Hk Hpre Hph Hsmall.
    assert (Hexit : details.elim_step N D anorm k (ak, pk) = Exit (a', p')).
    { unfold details.elim_step. rewrite Hph, Hsmall. reflexivity. }
    unfold elim_prefix in Hpre. fold N D anorm in Hpre.
    rewrite (for_until_exit_at (N - 1) k _ _ _ _ Hk Hpre Hexit). reflexivity.
  - intros k a' p' w Hk Hpre Hy Hsmall.
    unfold elim_prefix in Hpre. fold N D anorm in Hpre. rewrite Hpre.
    assert (Hexit : details.ystep D anorm a' k w = Exit w).
    { unfold details.ystep. rewrite Hsmall. reflexivity. }
    rewrite (for_until_exit_at N k _ _ _ _ Hk Hy Hexit). reflexivity.
Qed.

(** * The identity matrix of any order *)

(** C7: for every order [n >= 1], factoring the identity matrix returns
    with status OK and condition exactly [1.0]; the diagonal of the factor
    buffer is all ones, [pivot[k] = k] for every [k < n - 1], and
    [pivot[n-1] = 1]. *)
Theorem identity_factor (junk_double : block -> nat -> float) (junk_int : nat -> Z)
    (n : nat) (self : Decomp) :
  1 <= n ->
  exists (data : list float) (piv : list Z),
    Decomp_call junk_double junk_int false (identity n) self
    = Returns (MkDecomp 1%float (Z.of_nat n) (Some data) (Some piv) OK) /\
    (forall i, i < n -> details.rd data (details.ix n i i) = 1%float) /\
    (forall k, k < n - 1 -> piv !!! k = Z.of_nat k) /\
    piv !!! (n - 1)%nat = 1%Z.
Proof.
  intros Hn.
  assert (Hne : identity n <> []).
  { intros E. apply (f_equal length) in E.
    rewrite identity_facts.identity_length in E. simpl in E. lia. }
  pose proof (Decomp_call_square junk_double junk_int false (identity n) self Hne
                (identity_facts.identity_square n)) as Hcall.
  cbv zeta in Hcall. rewrite identity_facts.identity_length in Hcall.
  rewrite identity_facts.concat_identity in Hcall by lia.
  destruct (decide (n = 1)) as [->|Hn1].
  - exists [1%float], [1%Z]. split; [exact Hcall|].
    split; [|split; [|reflexivity]].
    + intros i Hi. replace i with 0%nat by lia. reflexivity.
    + intros k Hk. lia.
  - unfold malloc_double in Hcall.
    rewrite identity_facts.decomp_identity in Hcall
      by (rewrite ?new_double_length, ?new_int_length; nia).
    simpl in Hcall.
    eexists _, _. split; [exact Hcall|]. split; [|split].
    + intros i Hi. rewrite identity_facts.factor_entry by exact Hi.
      destruct (decide (i = i)); [reflexivity|congruence].
    + intros k Hk.
      rewrite identity_facts.identity_pivot_lookup
        by (rewrite length_insert, new_int_length; nia).
      destruct (decide (k < n - 1)); [reflexivity|lia].
    + rewrite identity_facts.identity_pivot_lookup
        by (rewrite length_insert, new_int_length; nia).
      destruct (decide (n - 1 < n - 1)); [lia|].
      apply list_lookup_total_insert_eq. rewrite new_int_length. nia.
Qed.

(** ** Closed instances *)

(** [[0,1],[0,1]] leaves in the first pass; [[1,2],[2,4]] completes the
    elimination and leaves at the second diagonal element. *)
Lemma singular_exit_witness :
  details.decomp 2 2 (Some [0; 0]%float)
    (details.Mem (Some [0; 1; 0; 1]%float) 0%float (Some [0; 0]%Z) 0)
  = details.Mem (Some [0; 1; 0; 1]%float) 1.0e+32%float (Some [0; 1]%Z) Singular /\
  details.decomp 2 2 (Some [0; 0]%float)
    (details.Mem (Some [1; 2; 2; 4]%float) 0%float (Some [0; 0]%Z) 0)
  = details.Mem (Some [2; 4; -0.5; 0]%float) 1.0e+32%float (Some [1; -1]%Z) Singular.
Proof.
  split.
  - apply (proj1 (singular_exit 2 2 [0; 1; 0; 1]%float [0; 0]%float [0; 0]%Z 0%float 0
                    ltac:(lia) ltac:(lia) ltac:(simpl; lia) ltac:(simpl; lia)
                    ltac:(simpl; lia))
             0%nat [0; 1; 0; 1]%float [0; 1]%Z [0; 1; 0; 1]%float [0; 1]%Z 0%float).
    + simpl. lia.
    + reflexivity.
    + reflexivity.
    + reflexivity.
  - apply (proj2 (singular_exit 2 2 [1; 2; 2; 4]%float [0; 0]%float [0; 0]%Z 0%float 0
                    ltac:(lia) ltac:(lia) ltac:(simpl; lia) ltac:(simpl; lia)
                    ltac:(simpl; lia))
             1%nat [2; 4; -0.5; 0]%float [1; -1]%Z [-0.5; 0]%float).
    + simpl. lia.
    + reflexivity.
    + reflexivity.
    + reflexivity.
Defined.

Lemma identity_factor_witness :
  exists (data : list float) (piv : list Z),
    Decomp_call zero_double zero_int false (identity 3) Decomp_new
    = Returns (MkDecomp 1%float 3 (Some data) (Some piv) OK) /\
    (forall i, i < 3 -> details.rd data (details.ix 3 i i) = 1%float) /\
    (forall k, k < 3 - 1 -> piv !!! k = Z.of_nat k) /\
    piv !!! (3 - 1)%nat = 1%Z.
Proof.
  apply (identity_factor zero_double zero_int 3 Decomp_new). lia.
Defined.

(** * The routines on small systems *)

Section SmallSystems.
Variable junk_double : block -> nat -> float.
Variable junk_int : nat -> Z.

(** [[2,1],[1,3]] x = [3,4] has the solution [1,1]. *)
Example two_by_two (self : Decomp) :
  Decomp_call junk_double junk_int false [[2; 1]; [1; 3]]%float self
  = Returns (MkDecomp 2.666666666666667%float 2 (Some [2; 1; -0.5; 2.5]%float)
                      (Some [0; 1; junk_int 2%nat; junk_int 3%nat]%Z) OK) /\
  details.solve 2 2 [2; 1; -0.5; 2.5]%float [3; 4]%float [0; 1]%Z = [1; 1]%float.
Proof. split; reflexivity. Qed.

(** Two identical rows, and a zero row, are reported singular. *)
Example identical_rows (self : Decomp) :
  Decomp_call junk_double junk_int false [[1; 2]; [1; 2]]%float self
  = Returns (MkDecomp 1.0e+32%float 2 (Some [1; 2; -1; 0]%float)
                      (Some [0; 1; junk_int 2%nat; junk_int 3%nat]%Z) Singular).
Proof. reflexivity. Qed.

Example zero_row (self : Decomp) :
  Decomp_call junk_double junk_int false [[0; 0]; [1; 2]]%float self
  = Returns (MkDecomp 1.0e+32%float 2 (Some [1; 2; -0; 0]%float)
                      (Some [1; -1; junk_int 2%nat; junk_int 3%nat]%Z) Singular).
Proof. reflexivity. Qed.

(** Without workspace [decomp] reports the allocation failure and factors
    nothing. *)
Example no_workspace (self : Decomp) :
  Decomp_call junk_double junk_int true [[2; 1]; [1; 3]]%float self
  = Returns (MkDecomp (cond_ self) 2 (Some [2; 1; 1; 3]%float)
                      (Some [junk_int 0%nat; 1; junk_int 2%nat; junk_int 3%nat]%Z)
                      AllocationFailure).
Proof. reflexivity. Qed.

End SmallSystems.

(** * Further properties of [details::decomp]: the status and the condition *)

Section DecompStatus.
Import details.
Variables (n ndim : Z) (work : option (list float)).

(** X1: [decomp] reports illegal input (flag 2) exactly when [a] or
    [pivot] is null, [n < 1] or [ndim < n], and then it writes nothing but
    the flag: the buffers and the condition are as the caller left them. *)
Theorem decomp_rejects (s : mem) :
  let illegal := m_a s = None \/ m_pivot s = None \/ (n < 1)%Z \/ (ndim < n)%Z in
  (illegal -> decomp n ndim work s = Mem (m_a s) (m_cond s) (m_pivot s) ConfigurationError) /\
  (m_flag (decomp n ndim work s) = ConfigurationError -> illegal).
Proof.
  intros illegal. split; [apply decomp_facts.decomp_illegal|].
  unfold illegal. destruct s as [[a|] c [p|] f]; simpl; auto.
  intros H. apply decomp_facts.decomp_flag_2 in H. tauto.
Qed.

(** X2: on legal input [decomp] reports an allocation failure (flag 1)
    exactly when the order is at least two and [malloc] returned null; the
    matrix buffer and the condition are then untouched, and of the pivot
    vector only [pivot[n-1] = 1] has been written. *)
Theorem decomp_no_workspace (a : list float) (c : float) (pivot : list Z) (f : Z) :
  (1 <= n)%Z -> (n <= ndim)%Z ->
  let r := decomp n ndim work (Mem (Some a) c (Some pivot) f) in
  (m_flag r = AllocationFailure <-> (2 <= n)%Z /\ work = None) /\
  (m_flag r = AllocationFailure ->
   r = Mem (Some a) c (Some (<[(Z.to_nat n - 1)%nat := 1%Z]> pivot)) AllocationFailure).
Proof.
  intros Hn Hd r. unfold r, decomp. simpl.
  replace ((n <? 1)%Z || (ndim <? n)%Z) with false
    by (symmetry; apply orb_false_iff; rewrite !Z.ltb_ge; lia).
  destruct (n =? 1)%Z eqn:E1.
  { apply Z.eqb_eq in E1.
    destruct (rd a 0 =? 0)%float; simpl; (split; [split|]); try discriminate; lia. }
  apply Z.eqb_neq in E1. destruct work as [w|].
  - fold (elim_prefix n ndim a pivot (Z.to_nat n - 1)).
    destruct (elim_prefix n ndim a pivot (Z.to_nat n - 1)) as [[a1 p1]|[a1 p1]].
    + destruct (for_until (seq 0 (Z.to_nat n)) _ w) as [w1|w1]; simpl.
      * destruct (_ =? _)%float; (split; [split|]); try discriminate;
          intros [_ H]; discriminate.
      * (split; [split|]); try discriminate; intros [_ H]; discriminate.
    + simpl. (split; [split|]); try discriminate; intros [_ H]; discriminate.
  - simpl. split; [split; [intros _; split; [lia|reflexivity]|reflexivity]|reflexivity].
Qed.

(** X3: on legal input with workspace at hand (or order one), the status
    is 0 or 3, and it is 3 (singular) exactly when [cond + 1.0 == cond] holds
    for the condition returned; that condition is the sentinel [1e32], or
    NaN, or at least [1.0]. *)
Theorem decomp_singular_iff (a : list float) (c : float) (pivot : list Z) (f : Z) :
  (1 <= n)%Z -> (n <= ndim)%Z -> (n = 1%Z \/ work <> None) ->
  let r := decomp n ndim work (Mem (Some a) c (Some pivot) f) in
  m_flag r = (if (m_cond r + 1 =? m_cond r)%float then Singular else OK) /\
  (m_cond r = 1.0e+32%float \/ m_cond r = nan \/ (1 <=? m_cond r)%float = true).
Proof.
  intros Hn Hd Hw r. unfold r, decomp. simpl.
  replace ((n <? 1)%Z || (ndim <? n)%Z) with false
    by (symmetry; apply orb_false_iff; rewrite !Z.ltb_ge; lia).
  destruct (n =? 1)%Z eqn:E1.
  { destruct (rd a 0 =? 0)%float; simpl; split; try reflexivity; auto. }
  apply Z.eqb_neq in E1. destruct work as [w|]; [|destruct Hw; congruence].
  fold (elim_prefix n ndim a pivot (Z.to_nat n - 1)).
  destruct (elim_prefix n ndim a pivot (Z.to_nat n - 1)) as [[a1 p1]|[a1 p1]];
    [|simpl; split; [reflexivity|auto]].
  destruct (for_until (seq 0 (Z.to_nat n)) _ w) as [w1|w1];
    [|simpl; split; [reflexivity|auto]].
  simpl. split; [reflexivity|].
  unfold estimate.
  match goal with
  | |- context [floor_one ?q] => destruct (estimate_facts.floor_one_spec q) as [[_ H]|H]
  end; auto.
Qed.

End DecompStatus.

Lemma decomp_rejects_witness :
  details.decomp 0 3 None (details.Mem (Some [1%float]) 7%float (Some [5%Z]) 9)
  = details.Mem (Some [1%float]) 7%float (Some [5%Z]) ConfigurationError.
Proof.
  apply (proj1 (decomp_rejects 0 3 None
                  (details.Mem (Some [1%float]) 7%float (Some [5%Z]) 9))).
  simpl. right. right. left. lia.
Defined.

Lemma decomp_no_workspace_witness :
  details.decomp 2 2 None (details.Mem (Some [2; 1; 1; 3]%float) 7%float (Some [5; 5]%Z) 9)
  = details.Mem (Some [2; 1; 1; 3]%float) 7%float (Some [5; 1]%Z) AllocationFailure.
Proof.
  apply (proj2 (decomp_no_workspace 2 2 None [2; 1; 1; 3]%float 7%float [5; 5]%Z 9
                  ltac:(lia) ltac:(lia))).
  reflexivity.
Defined.

Lemma decomp_singular_iff_witness :
  let r := details.decomp 2 2 (Some [0; 0]%float)
             (details.Mem (Some [1; 2; 2; 4]%float) 0%float (Some [0; 0]%Z) 0) in
  details.m_flag r = Singular /\ details.m_cond r = 1.0e+32%float.
Proof.
  intros r.
  destruct (decomp_singular_iff 2 2 (Some [0; 0]%float) [1; 2; 2; 4]%float 0%float
              [0; 0]%Z 0 ltac:(lia) ltac:(lia) ltac:(right; discriminate)) as [Hf _].
  split; [exact Hf|reflexivity].
Defined.

(** * What the elimination leaves alone *)

Module frame_facts.
Import details solve_facts elim_facts.

(** A loop that leaves, leaves in one of its passes. *)
Lemma for_until_exit_inv {S : Type} (n : nat) (body : nat -> S -> ctl S) (s se : S) :
  for_until (seq 0 n) body s = Exit se ->
  exists k sk, k < n /\ for_until (seq 0 k) body s = Next sk /\ body k sk = Exit se.
Proof.
  induction n as [|n IH]; [discriminate|].
  rewrite for_until_snoc.
  destruct (for_until (seq 0 n) body s) as [sn|sn] eqn:Hn.
  - intros Hex. exists n, sn. split; [lia|]. split; [exact Hn|exact Hex].
  - intros [= ->]. destruct (IH eq_refl) as (k & sk & Hk & Hpre & Hex).
    exists k, sk. split; [lia|]. split; assumption.
Qed.

Lemma swap_rows_outside n ndim m k a q :
  m < n -> k < n -> outside_block n ndim q ->
  rd (swap_rows n ndim m k a) q = rd a q.
Proof.
  intros Hm Hk Hq. unfold swap_rows.
  apply (for_up_ind (fun _ t => rd t q = rd a q)); [lia|reflexivity|].
  intros j t Hj Ht.
  rewrite !rd_insert_ne; [exact Ht|..]; intros E; symmetry in E; revert E; apply Hq; lia.
Qed.

Lemma eliminate_row_outside n ndim anorm pvt k i a q :
  i < n -> k < n -> outside_block n ndim q ->
  rd (eliminate_row n ndim anorm pvt k i a) q = rd a q.
Proof.
  intros Hi Hk Hq. unfold eliminate_row.
  assert (E0 : rd (<[ix ndim i k := (- (rd a (ix ndim i k) / pvt))%float]> a) q = rd a q).
  { apply rd_insert_ne. intros E; symmetry in E; revert E; apply Hq; lia. }
  apply (for_up_ind (fun _ t => rd t q = rd a q)); [lia|exact E0|].
  intros j t Hj Ht. destruct (_ <? _)%float; [|exact Ht].
  rewrite rd_insert_ne; [exact Ht|]. intros E; symmetry in E; revert E; apply Hq; lia.
Qed.

Lemma eliminate_rows_outside n ndim anorm pvt k a q :
  k < n -> outside_block n ndim q ->
  rd (for_up (k + 1) n (eliminate_row n ndim anorm pvt k) a) q = rd a q.
Proof.
  intros Hk Hq.
  apply (for_up_ind (fun _ t => rd t q = rd a q)); [lia|reflexivity|].
  intros i t Hi Ht. rewrite eliminate_row_outside by (assumption || lia). exact Ht.
Qed.

(** One pass, however it ends, keeps the lengths, the cells outside the
    block, the pivot entries other than [k] and [n-1], and the sign in
    [pivot[n-1]]. *)
Lemma elim_step_frame n ndim anorm k a p a' p' :
  k < n - 1 -> n <= length p ->
  elim_step n ndim anorm k (a, p) = Next (a', p') \/
  elim_step n ndim anorm k (a, p) = Exit (a', p') ->
  (forall q, outside_block n ndim q -> rd a' q = rd a q) /\
  (forall j, j <> k -> j <> n - 1 -> p' !!! j = p !!! j) /\
  (p' !!! (n - 1)%nat = p !!! (n - 1)%nat \/ p' !!! (n - 1)%nat = (- p !!! (n - 1)%nat)%Z) /\
  (Z.of_nat k <= p' !!! k < Z.of_nat n)%Z.
Proof.
  intros Hk Hlen Hstep.
  destruct (find_pivot_spec n ndim a k ltac:(lia)) as (Hm & _).
  destruct (pivot_phase_pivot n ndim k a p Hk Hlen) as [Hrec Hpar].
  assert (Hp' : p' = snd (fst (pivot_phase n ndim k (a, p))) /\
                forall q, outside_block n ndim q -> rd a' q = rd a q).
  { revert Hstep. unfold elim_step.
    destruct (pivot_phase n ndim k (a, p)) as [[a1 p1] pvt] eqn:Hph. simpl.
    assert (Ha1 : forall q, outside_block n ndim q -> rd a1 q = rd a q).
    { revert Hph. unfold pivot_phase. simpl.
      destruct (decide _); intros [= <- _ _] q Hq; [reflexivity|].
      apply swap_rows_outside; [lia|lia|exact Hq]. }
    destruct (_ <? _)%float; intros [H|H]; try discriminate; injection H as <- <-.
    - split; [reflexivity|exact Ha1].
    - split; [reflexivity|]. intros q Hq.
      rewrite eliminate_rows_outside by (exact Hq || lia). apply Ha1, Hq. }
  destruct Hp' as [-> Ha]. split; [exact Ha|]. split; [|split].
  - intros j Hj1 Hj2. apply pivot_phase_other; assumption.
  - rewrite Hpar. destruct (decide _); [left|right]; reflexivity.
  - rewrite Hrec. lia.
Qed.

(** The elimination, as far as it has run and however it has ended. *)
Lemma elim_run_frame (n ndim : Z) (a : list float) (pivot : list Z) (k : nat) a' p' :
  (2 <= n)%Z -> Z.to_nat n <= length pivot -> k <= Z.to_nat n - 1 ->
  elim_prefix n ndim a pivot k = Next (a', p') \/
  elim_prefix n ndim a pivot k = Exit (a', p') ->
  let N := Z.to_nat n in
  length a' = length a /\ length p' = length pivot /\
  (forall q, outside_block N (Z.to_nat ndim) q -> rd a' q = rd a q) /\
  (forall j, N <= j -> p' !!! j = pivot !!! j) /\
  (p' !!! (N - 1)%nat = 1%Z \/ p' !!! (N - 1)%nat = (-1)%Z).
Proof.
  intros Hn Hlen. revert a' p'. induction k as [|k IH]; intros a' p' Hk Hrun N.
  - unfold elim_prefix in Hrun. simpl in Hrun. fold N in Hrun.
    destruct Hrun as [H|H]; [|discriminate]. injection H as <- <-.
    rewrite length_insert. split; [reflexivity|]. split; [reflexivity|].
    split; [reflexivity|]. split.
    + intros j Hj. apply list_lookup_total_insert_ne. lia.
    + left. apply list_lookup_total_insert_eq. lia.
  - rewrite elim_prefix_snoc in Hrun. fold N in Hrun.
    destruct (elim_prefix n ndim a pivot k) as [[a1 p1]|[a1 p1]] eqn:Hpre.
    + destruct (IH a1 p1 ltac:(lia) (or_introl eq_refl)) as (Ha1 & Hp1 & Hout & Hhigh & Hsign).
      fold N in Hout, Hhigh, Hsign.
      destruct (elim_step_length _ _ _ _ _ _ _ _ Hrun) as [Ha' Hp'].
      destruct (elim_step_frame N (Z.to_nat ndim) _ k a1 p1 a' p'
                  ltac:(unfold N; lia) ltac:(unfold N; lia) Hrun)
        as (Hout' & Hoth & Hsign' & _).
      split; [congruence|]. split; [congruence|]. split; [|split].
      * intros q Hq. rewrite Hout' by exact Hq. apply Hout, Hq.
      * intros j Hj. rewrite Hoth by (unfold N in *; lia). apply Hhigh, Hj.
      * lia.
    + destruct Hrun as [H|H]; [discriminate|]. injection H as <- <-.
      apply (IH a1 p1 ltac:(lia) (or_intror eq_refl)).
Qed.

End frame_facts.

Section DecompFrame.
Import details.
Variables (n ndim : Z) (work : option (list float)).
Variables (a : list float) (c : float) (pivot : list Z) (f : Z).

(** The buffers [decomp] returns, against those it was given. *)
Lemma decomp_buffers_kept :
  Z.to_nat n <= length pivot ->
  let r := decomp n ndim work (Mem (Some a) c (Some pivot) f) in
  exists a' p',
    m_a r = Some a' /\ m_pivot r = Some p' /\
    length a' = length a /\ length p' = length pivot /\
    (forall q, outside_block (Z.to_nat n) (Z.to_nat ndim) q -> rd a' q = rd a q) /\
    (forall j, Z.to_nat n <= j -> p' !!! j = pivot !!! j).
Proof.
  intros Hlen r. unfold r, decomp. simpl.
  destruct ((n <? 1)%Z || (ndim <? n)%Z) eqn:E.
  { simpl. exists a, pivot. repeat split; reflexivity. }
  apply orb_false_iff in E. rewrite !Z.ltb_ge in E.
  assert (Hone : forall j, Z.to_nat n <= j ->
            <[(Z.to_nat n - 1)%nat := 1%Z]> pivot !!! j = pivot !!! j).
  { intros j Hj. apply list_lookup_total_insert_ne. lia. }
  destruct (n =? 1)%Z eqn:E1.
  { destruct (rd a 0 =? 0)%float; simpl; eexists _, _;
      (split; [reflexivity|split; [reflexivity|]]);
      rewrite length_insert; repeat split; try reflexivity; exact Hone. }
  apply Z.eqb_neq in E1. destruct work as [w|].
  2:{ simpl. eexists _, _. split; [reflexivity|split; [reflexivity|]].
      rewrite length_insert. repeat split; try reflexivity; exact Hone. }
  fold (elim_prefix n ndim a pivot (Z.to_nat n - 1)).
  destruct (elim_prefix n ndim a pivot (Z.to_nat n - 1)) as [[a1 p1]|[a1 p1]] eqn:Hel.
  - destruct (frame_facts.elim_run_frame n ndim a pivot _ a1 p1 ltac:(lia) Hlen
                (Nat.le_refl _) (or_introl Hel)) as (H1 & H2 & H3 & H4 & _).
    destruct (for_until (seq 0 (Z.to_nat n)) _ w) as [w1|w1]; simpl;
      exists a1, p1; repeat split; assumption.
  - destruct (frame_facts.elim_run_frame n ndim a pivot _ a1 p1 ltac:(lia) Hlen
                (Nat.le_refl _) (or_intror Hel)) as (H1 & H2 & H3 & H4 & _).
    simpl. exists a1, p1. repeat split; assumption.
Qed.

(** X5: on legal input [decomp] always returns [pivot[n-1]] as [1] or
    [-1]; and when it reports success, every recorded [pivot[k]], [k < n-1],
    is a row between [k] and [n-1]. *)
Theorem decomp_pivot_rows :
  (1 <= n)%Z -> (n <= ndim)%Z -> Z.to_nat n <= length pivot ->
  let r := decomp n ndim work (Mem (Some a) c (Some pivot) f) in
  let p' := default [] (m_pivot r) in
  (p' !!! (Z.to_nat n - 1)%nat = 1%Z \/ p' !!! (Z.to_nat n - 1)%nat = (-1)%Z) /\
  (m_flag r = OK ->
   forall k, k < Z.to_nat n - 1 -> (Z.of_nat k <= p' !!! k < n)%Z).
Proof.
  intros Hn Hd Hlen r p'. unfold p', r, decomp. simpl.
  replace ((n <? 1)%Z || (ndim <? n)%Z) with false
    by (symmetry; apply orb_false_iff; rewrite !Z.ltb_ge; lia).
  assert (Hone : <[(Z.to_nat n - 1)%nat := 1%Z]> pivot !!! (Z.to_nat n - 1)%nat = 1%Z)
    by (apply list_lookup_total_insert_eq; lia).
  destruct (n =? 1)%Z eqn:E1.
  { apply Z.eqb_eq in E1.
    destruct (rd a 0 =? 0)%float; simpl; (split; [left; exact Hone|]); intros _ k Hk; lia. }
  apply Z.eqb_neq in E1. destruct work as [w|].
  2:{ simpl. split; [left; exact Hone|discriminate]. }
  fold (elim_prefix n ndim a pivot (Z.to_nat n - 1)).
  destruct (elim_prefix n ndim a pivot (Z.to_nat n - 1)) as [[a1 p1]|[a1 p1]] eqn:Hel.
  - destruct (frame_facts.elim_run_frame n ndim a pivot _ a1 p1 ltac:(lia) Hlen
                (Nat.le_refl _) (or_introl Hel)) as (_ & _ & _ & _ & Hsign).
    assert (Hrows : forall k, k < Z.to_nat n - 1 -> (Z.of_nat k <= p1 !!! k < n)%Z).
    { intros k Hk.
      exact (elim_facts.elim_prefix_pivots n ndim a pivot _ a1 p1 ltac:(lia) Hlen
               (Nat.le_refl _) Hel k Hk). }
    destruct (for_until (seq 0 (Z.to_nat n)) _ w) as [w1|w1]; simpl;
      (split; [exact Hsign|]); intros _; exact Hrows.
  - destruct (frame_facts.elim_run_frame n ndim a pivot _ a1 p1 ltac:(lia) Hlen
                (Nat.le_refl _) (or_intror Hel)) as (_ & _ & _ & _ & Hsign).
    simpl. split; [exact Hsign|discriminate].
Qed.

End DecompFrame.

(** X4: [decomp] keeps the lengths of both buffers, changes no cell of
    [a] outside the [n] by [n] block it factors (the rest of a larger
    allocation with stride [ndim] is left alone), and no entry of [pivot]
    from index [n] on. *)
Theorem decomp_frame (n ndim : Z) (work : option (list float)) (a : list float)
    (c : float) (pivot : list Z) (f : Z) :
  Z.to_nat n <= length pivot ->
  let r := details.decomp n ndim work (details.Mem (Some a) c (Some pivot) f) in
  exists a' p',
    details.m_a r = Some a' /\ details.m_pivot r = Some p' /\
    length a' = length a /\ length p' = length pivot /\
    (forall q, outside_block (Z.to_nat n) (Z.to_nat ndim) q ->
       details.rd a' q = details.rd a q) /\
    (forall j, Z.to_nat n <= j -> p' !!! j = pivot !!! j).
Proof. apply decomp_buffers_kept. Qed.

Lemma decomp_frame_witness :
  exists a' p',
    details.decomp 2 3 (Some [0; 0]%float)
      (details.Mem (Some [2; 1; 9; 1; 3; 9]%float) 0%float (Some [5; 5; 5]%Z) 0)
    = details.Mem (Some a') 2.666666666666667%float (Some p') OK /\
    details.rd a' 2 = 9%float /\ details.rd a' 5 = 9%float /\ p' !!! 2%nat = 5%Z.
Proof.
  destruct (decomp_frame 2 3 (Some [0; 0]%float) [2; 1; 9; 1; 3; 9]%float 0%float
              [5; 5; 5]%Z 0 ltac:(simpl; lia))
    as (a' & p' & Ha & Hp & _ & _ & Hout & Hhigh).
  exists a', p'. split.
  - vm_compute in Ha, Hp. injection Ha as <-. injection Hp as <-. reflexivity.
  - split; [|split].
    + apply (Hout 2%nat). intros i j Hi Hj. unfold details.ix.
      destruct i as [|[|i]], j as [|[|j]]; simpl; lia.
    + apply (Hout 5%nat). intros i j Hi Hj. unfold details.ix.
      destruct i as [|[|i]], j as [|[|j]]; simpl; lia.
    + apply (Hhigh 2%nat). simpl. lia.
Defined.

Lemma decomp_pivot_rows_witness :
  let r := details.decomp 2 2 (Some [0; 0]%float)
             (details.Mem (Some [0; 1; 1; 0]%float) 0%float (Some [5; 5]%Z) 0) in
  (default [] (details.m_pivot r) !!! 1%nat = 1%Z \/
   default [] (details.m_pivot r) !!! 1%nat = (-1)%Z) /\
  (0 <= default [] (details.m_pivot r) !!! 0%nat < 2)%Z.
Proof.
  intros r.
  destruct (decomp_pivot_rows 2 2 (Some [0; 0]%float) [0; 1; 1; 0]%float 0%float
              [5; 5]%Z 0 ltac:(lia) ltac:(lia) ltac:(simpl; lia)) as [Hs Hr].
  split; [exact Hs|]. apply (Hr eq_refl 0%nat). simpl. lia.
Defined.

(** * The loops of [decomp] and [solve], one by one *)

Module loop_facts.
Import details solve_facts elim_facts.

Lemma for_up_ext {S : Type} lo hi (body1 body2 : nat -> S -> S) (s : S) :
  (forall i t, lo <= i < hi -> body1 i t = body2 i t) ->
  for_up lo hi body1 s = for_up lo hi body2 s.
Proof.
  intros H. destruct (decide (lo <= hi)) as [Hle|Hgt].
  - apply (for_up_ind (fun i t => t = for_up lo i body2 s)); [exact Hle| |].
    + rewrite for_up_ge by lia. reflexivity.
    + intros i t Hi ->. rewrite for_up_S by lia. apply H. exact Hi.
  - rewrite !for_up_ge by lia. reflexivity.
Qed.

(** Two blocks of the same length that read the same are the same. *)
Lemma rd_ext (l1 l2 : list float) :
  length l1 = length l2 -> (forall i, i < length l1 -> rd l1 i = rd l2 i) -> l1 = l2.
Proof.
  intros Hl Hrd. apply list_eq. intros i.
  destruct (decide (i < length l1)) as [Hi|Hi].
  - rewrite (list_lookup_lookup_total_lt l1 i Hi).
    rewrite (list_lookup_lookup_total_lt l2 i ltac:(lia)).
    f_equal. apply Hrd, Hi.
  - rewrite !lookup_ge_None_2 by lia. reflexivity.
Qed.

(** ** The elimination of one row, and of all rows below the pivot *)

Lemma eliminate_row_spec (n ndim : nat) (anorm pvt : float) (k i : nat) (a : list float) :
  i <> k -> i < n -> k < n -> n <= ndim -> (n - 1) * ndim + n <= length a ->
  let t := (- (rd a (ix ndim i k) / pvt))%float in
  let a' := eliminate_row n ndim anorm pvt k i a in
  length a' = length a /\
  rd a' (ix ndim i k) = t /\
  (forall j, k < j < n ->
     rd a' (ix ndim i j)
     = if (anorm * EPSILON <? abs t)%float
       then (rd a (ix ndim i j) + rd a (ix ndim k j) * t)%float
       else rd a (ix ndim i j)) /\
  (forall q, q <> ix ndim i k -> (forall j, k < j < n -> q <> ix ndim i j) ->
     rd a' q = rd a q).
Proof.
  intros Hik Hi Hk Hnd Hlen t a'. unfold a', eliminate_row. fold t.
  assert (Hin : forall r c, r < n -> c < n -> ix ndim r c < length a).
  { intros r c Hr Hc. pose proof (ix_block n ndim r c Hr Hc). lia. }
  apply (for_up_ind
           (fun j s =>
              length s = length a /\
              rd s (ix ndim i k) = t /\
              (forall j', k < j' < j ->
                 rd s (ix ndim i j')
                 = if (anorm * EPSILON <? abs t)%float
                   then (rd a (ix ndim i j') + rd a (ix ndim k j') * t)%float
                   else rd a (ix ndim i j')) /\
              (forall q, q <> ix ndim i k -> (forall j', k < j' < j -> q <> ix ndim i j') ->
                 rd s q = rd a q))); [lia| |].
  - split; [apply length_insert|]. split; [apply rd_insert_eq, Hin; lia|].
    split; [intros j' Hj'; lia|].
    intros q Hq _. apply rd_insert_ne. congruence.
  - intros j s Hj (Hl & Hk' & Hdone & Hrest).
    assert (Eij : rd s (ix ndim i j) = rd a (ix ndim i j)).
    { apply Hrest; [intros E; apply ix_inj in E; lia|].
      intros j' Hj' E. apply ix_inj in E; lia. }
    assert (Ekj : rd s (ix ndim k j) = rd a (ix ndim k j)).
    { apply Hrest; [intros E; apply ix_inj in E; lia|].
      intros j' Hj' E. apply ix_inj in E; lia. }
    destruct (anorm * EPSILON <? abs t)%float eqn:Ht.
    + split; [rewrite length_insert; exact Hl|]. split; [|split].
      * rewrite rd_insert_ne by (intros E; apply ix_inj in E; lia). exact Hk'.
      * intros j' Hj'. destruct (decide (j' = j)) as [->|Hne].
        -- rewrite rd_insert_eq by (rewrite Hl; apply Hin; lia).
           rewrite Eij, Ekj. reflexivity.
        -- rewrite rd_insert_ne by (intros E; apply ix_inj in E; lia).
           apply Hdone. lia.
      * intros q Hq1 Hq2. rewrite rd_insert_ne by (apply not_eq_sym, Hq2; lia).
        apply Hrest; [exact Hq1|]. intros j' Hj'. apply Hq2. lia.
    + split; [exact Hl|]. split; [exact Hk'|]. split.
      * intros j' Hj'. destruct (decide (j' = j)) as [->|Hne]; [exact Eij|].
        apply Hdone. lia.
      * intros q Hq1 Hq2. apply Hrest; [exact Hq1|]. intros j' Hj'. apply Hq2. lia.
Qed.

Lemma eliminate_rows_spec (n ndim : nat) (anorm pvt : float) (k : nat) (a : list float) :
  k < n -> n <= ndim -> (n - 1) * ndim + n <= length a ->
  let a' := for_up (k + 1) n (eliminate_row n ndim anorm pvt k) a in
  (forall i, k < i < n ->
     let t := (- (rd a (ix ndim i k) / pvt))%float in
     rd a' (ix ndim i k) = t /\
     forall j, k < j < n ->
       rd a' (ix ndim i j)
       = if (anorm * EPSILON <? abs t)%float
         then (rd a (ix ndim i j) + rd a (ix ndim k j) * t)%float
         else rd a (ix ndim i j)) /\
  (forall q, (forall i j, k < i < n -> k <= j < n -> q <> ix ndim i j) -> rd a' q = rd a q).
Proof.
  intros Hk Hnd Hlen a'. unfold a'.
  apply (for_up_ind
           (fun i0 s =>
              length s = length a /\
              (forall i, k < i < i0 ->
                 let t := (- (rd a (ix ndim i k) / pvt))%float in
                 rd s (ix ndim i k) = t /\
                 forall j, k < j < n ->
                   rd s (ix ndim i j)
                   = if (anorm * EPSILON <? abs t)%float
                     then (rd a (ix ndim i j) + rd a (ix ndim k j) * t)%float
                     else rd a (ix ndim i j)) /\
              (forall q, (forall i j, k < i < i0 -> k <= j < n -> q <> ix ndim i j) ->
                 rd s q = rd a q))); [lia| |].
  - split; [reflexivity|]. split; [intros i Hi; lia|]. intros q _. reflexivity.
  - intros i0 s Hi0 (Hl & Hdone & Hrest).
    destruct (eliminate_row_spec n ndim anorm pvt k i0 s ltac:(lia) ltac:(lia) Hk Hnd
                ltac:(lia)) as (Hl' & Hk' & Hrow & Hoth).
    assert (Erow : forall j, j < n -> rd s (ix ndim i0 j) = rd a (ix ndim i0 j)).
    { intros j Hj. apply Hrest. intros i j' Hi Hj' E. apply ix_inj in E; lia. }
    assert (Epiv : forall j, j < n -> rd s (ix ndim k j) = rd a (ix ndim k j)).
    { intros j Hj. apply Hrest. intros i j' Hi Hj' E. apply ix_inj in E; lia. }
    split; [congruence|]. split.
    + intros i Hi. destruct (decide (i = i0)) as [->|Hne].
      * cbv zeta. rewrite Hk'. rewrite Erow by lia. split; [reflexivity|].
        intros j Hj. rewrite Hrow by exact Hj.
        rewrite !Erow, Epiv by lia. reflexivity.
      * cbv zeta. destruct (Hdone i ltac:(lia)) as [D1 D2]. cbv zeta in D1, D2.
        split.
        -- rewrite Hoth; [exact D1| |]; intros; intros E; apply ix_inj in E; lia.
        -- intros j Hj. rewrite Hoth; [apply D2, Hj| |]; intros; intros E;
             apply ix_inj in E; lia.
    + intros q Hq. rewrite Hoth.
      * apply Hrest. intros i j Hi Hj. apply Hq; lia.
      * apply Hq; lia.
      * intros j Hj. apply Hq; lia.
Qed.

(** ** The workspace *)

(** A pass of the loop for [y] reads the cells of [work] below [k] only. *)
Lemma ystep_agree ndim anorm a k (w1 w2 : list float) :
  length w1 = length w2 -> k < length w1 ->
  (forall i, i < k -> rd w1 i = rd w2 i) ->
  match ystep ndim anorm a k w1, ystep ndim anorm a k w2 with
  | Next v1, Next v2 =>
      length v1 = length w1 /\ length v2 = length w2 /\
      forall i, i < S k -> rd v1 i = rd v2 i
  | Exit _, Exit _ => True
  | _, _ => False
  end.
Proof.
  intros Hl Hk Hag. unfold ystep.
  rewrite (for_up_ext 0 k _ (fun i t => (t + rd a (ix ndim i k) * rd w2 i)%float))
    by (intros i t Hi; rewrite Hag by lia; reflexivity).
  destruct (_ <? _)%float; [exact I|].
  rewrite !length_insert. split; [reflexivity|]. split; [reflexivity|].
  intros i Hi. destruct (decide (i = k)) as [->|Hne].
  - rewrite !rd_insert_eq by lia. reflexivity.
  - rewrite !rd_insert_ne by congruence. apply Hag. lia.
Qed.

Lemma yloop_agree ndim anorm a (w1 w2 : list float) (k : nat) :
  length w1 = length w2 -> k <= length w1 ->
  match for_until (seq 0 k) (ystep ndim anorm a) w1,
        for_until (seq 0 k) (ystep ndim anorm a) w2 with
  | Next v1, Next v2 =>
      length v1 = length w1 /\ length v2 = length w2 /\
      forall i, i < k -> rd v1 i = rd v2 i
  | Exit _, Exit _ => True
  | _, _ => False
  end.
Proof.
  intros Hl. induction k as [|k IH]; intros Hk.
  - simpl. split; [reflexivity|]. split; [reflexivity|]. intros i Hi. lia.
  - rewrite !for_until_snoc. specialize (IH ltac:(lia)).
    destruct (for_until (seq 0 k) _ w1) as [v1|v1], (for_until (seq 0 k) _ w2) as [v2|v2];
      try contradiction; [|exact I].
    destruct IH as (H1 & H2 & Hag).
    pose proof (ystep_agree ndim anorm a k v1 v2 ltac:(lia) ltac:(lia) Hag) as Hs.
    destruct (ystep ndim anorm a k v1) as [u1|u1], (ystep ndim anorm a k v2) as [u2|u2];
      try contradiction; [|exact I].
    destruct Hs as (H3 & H4 & Hag'). split; [lia|]. split; [lia|]. exact Hag'.
Qed.

(** [decomp] reads no cell of its workspace before writing it. *)
Lemma decomp_any_workspace (n ndim : Z) (w1 w2 : list float) (s : mem) :
  length w1 = Z.to_nat n -> length w2 = Z.to_nat n ->
  decomp n ndim (Some w1) s = decomp n ndim (Some w2) s.
Proof.
  intros H1 H2. unfold decomp.
  destruct (m_a s) as [a|]; [|reflexivity].
  destruct (m_pivot s) as [p|]; [|reflexivity].
  destruct ((n <? 1)%Z || (ndim <? n)%Z); [reflexivity|].
  destruct (n =? 1)%Z; [reflexivity|]. cbv zeta.
  destruct (for_until (seq 0 (Z.to_nat n - 1)) _ _) as [[a1 p1]|[a1 p1]]; [|reflexivity].
  pose proof (yloop_agree (Z.to_nat ndim)
                (norm1 (Z.to_nat n) (Z.to_nat ndim) a) a1 w1 w2 (Z.to_nat n)
                ltac:(lia) ltac:(lia)) as Hy.
  destruct (for_until (seq 0 (Z.to_nat n)) _ w1) as [v1|v1],
           (for_until (seq 0 (Z.to_nat n)) _ w2) as [v2|v2];
    try contradiction; [|reflexivity].
  destruct Hy as (L1 & L2 & Hag).
  replace v2 with v1; [reflexivity|].
  apply rd_ext; [lia|]. intros i Hi. apply Hag. lia.
Qed.

(** ** The right-hand side *)

Lemma pivots_in_range_elim (n : nat) (pivot : list Z) (k : nat) :
  pivots_in_range n pivot = true -> k < n - 1 -> Z.to_nat (pivot !!! k) < n.
Proof.
  unfold pivots_in_range. rewrite forallb_forall. intros H Hk.
  specialize (H k ltac:(apply in_seq; lia)).
  apply andb_true_iff in H. rewrite Z.leb_le, Z.ltb_lt in H. lia.
Qed.

Lemma forward_step_high n ndim a pivot k (b : list float) j :
  Z.to_nat (pivot !!! k) < n -> k < n -> n <= j ->
  rd (forward_step n ndim a pivot k b) j = rd b j.
Proof.
  intros Hm Hk Hj. unfold forward_step.
  apply (for_up_ind
           (fun _ t => rd t j = rd b j)); [lia| |].
  - rewrite !rd_insert_ne by lia. reflexivity.
  - intros i t Hi Ht. rewrite rd_insert_ne by lia. exact Ht.
Qed.

Lemma solve_length n ndim a b pivot : length (solve n ndim a b pivot) = length b.
Proof.
  unfold solve. destruct (n =? 1)%Z; [apply length_insert|].
  transitivity (length (forward_elim (Z.to_nat n) (Z.to_nat ndim) a pivot b)).
  - apply (for_down_ind (fun _ t => length t = length _)); [lia|reflexivity|].
    intros i t _ Ht. rewrite back_step_length. exact Ht.
  - apply forward_length.
Qed.

(** One pass of the forward elimination: the interchange of [b[m]] and
    [b[k]], then [b[i] += a[i][k] * t] for the rows below [k], [t] being the
    old [b[m]]. *)
Lemma forward_step_spec (n ndim : nat) (a : list float) (pivot : list Z) (k : nat)
    (b : list float) :
  k < n -> n <= length b ->
  let m := Z.to_nat (pivot !!! k) in
  let t := rd b m in
  let b0 := swap_cells b m k in
  let b1 := forward_step n ndim a pivot k b in
  length b1 = length b /\
  (forall i, i <= k \/ n <= i -> rd b1 i = rd b0 i) /\
  (forall i, k < i < n -> rd b1 i = (rd b0 i + rd a (ix ndim i k) * t)%float).
Proof.
  intros Hk Hlen m t b0 b1. unfold b1, forward_step. fold m. fold t.
  change (<[k := t]> (<[m := rd b k]> b)) with b0.
  assert (Hb0 : length b0 = length b) by (unfold b0, swap_cells; rewrite !length_insert; lia).
  apply (for_up_ind
           (fun i0 s =>
              length s = length b /\
              (forall i, i <= k \/ i0 <= i -> rd s i = rd b0 i) /\
              (forall i, k < i < i0 -> rd s i = (rd b0 i + rd a (ix ndim i k) * t)%float)));
    [lia| |].
  - split; [exact Hb0|]. split; [reflexivity|]. intros i Hi. lia.
  - intros i0 s Hi0 (Hl & Hsame & Hdone). split; [rewrite length_insert; exact Hl|]. split.
    + intros i Hi. rewrite rd_insert_ne by lia. apply Hsame. lia.
    + intros i Hi. destruct (decide (i = i0)) as [->|Hne].
      * rewrite rd_insert_eq by lia. rewrite Hsame by lia. reflexivity.
      * rewrite rd_insert_ne by congruence. apply Hdone. lia.
Qed.

(** Every component of the solution, as the back substitution computes it. *)
Lemma back_substitution_every (n ndim : Z) (a b : list float) (pivot : list Z) :
  (1 <= n)%Z -> length b = Z.to_nat n ->
  let N := Z.to_nat n in
  let D := Z.to_nat ndim in
  let x := details.solve n ndim a b pivot in
  let fwd := if (n =? 1)%Z then b else details.forward_elim N D a pivot b in
  forall k, k < N ->
    details.rd x k
    = (for_up (k + 1) N
         (fun j t => (t - details.rd a (details.ix D k j) * details.rd x j)%float)
         (details.rd fwd k)
       / details.rd a (details.ix D k k))%float.
Proof.
  intros Hn Hlen N D x fwd k Hk. unfold x, fwd, details.solve.
  destruct (n =? 1)%Z eqn:E1.
  { apply Z.eqb_eq in E1. subst n. replace k with 0%nat by (unfold N in Hk; lia).
    unfold N. simpl. rewrite for_up_ge by lia.
    rewrite solve_facts.rd_insert_eq by lia. reflexivity. }
  fold N D. set (f := details.forward_elim N D a pivot b).
  assert (Hf : length f = N) by (unfold f, details.forward_elim;
                                 rewrite solve_facts.forward_length; exact Hlen).
  revert k Hk.
  assert (Hinv :
    length (for_down 0 N (details.back_step N D a) f) = N /\
    (forall k, k < 0 -> details.rd (for_down 0 N (details.back_step N D a) f) k
                        = details.rd f k) /\
    forall k, 0 <= k < N ->
      details.rd (for_down 0 N (details.back_step N D a) f) k
      = (for_up (k + 1) N
           (fun j t => (t - details.rd a (details.ix D k j)
                            * details.rd (for_down 0 N (details.back_step N D a) f) j)%float)
           (details.rd f k)
         / details.rd a (details.ix D k k))%float).
  { apply (for_down_ind
             (fun i t =>
                length t = N /\
                (forall k, k < i -> details.rd t k = details.rd f k) /\
                forall k, i <= k < N ->
                  details.rd t k
                  = (for_up (k + 1) N
                       (fun j acc => (acc - details.rd a (details.ix D k j)
                                            * details.rd t j)%float)
                       (details.rd f k)
                     / details.rd a (details.ix D k k))%float)); [lia| |].
    - split; [exact Hf|]. split; [reflexivity|]. intros k Hk. lia.
    - intros i t Hi (Hl & Hlow & Hdone).
      split; [rewrite solve_facts.back_step_length; exact Hl|]. split.
      + intros k Hk. rewrite solve_facts.back_step_other by lia. apply Hlow. lia.
      + intros k Hk.
        assert (Hext : forall k', i <= k' ->
                  forall s0,
                  for_up (k' + 1) N
                    (fun j acc => (acc - details.rd a (details.ix D k' j)
                                         * details.rd (details.back_step N D a i t) j)%float) s0
                  = for_up (k' + 1) N
                      (fun j acc => (acc - details.rd a (details.ix D k' j)
                                           * details.rd t j)%float) s0).
        { intros k' Hk' s0. apply for_up_ext. intros j acc Hj.
          rewrite solve_facts.back_step_other by lia. reflexivity. }
        rewrite Hext by lia.
        destruct (decide (k = i)) as [->|Hne].
        * rewrite solve_facts.back_step_divides by lia.
          rewrite Hlow by lia. reflexivity.
        * rewrite solve_facts.back_step_other by lia. apply Hdone. lia. }
  destruct Hinv as (_ & _ & H). intros k Hk. apply H. lia.
Qed.


End loop_facts.

(** X7: the norm [decomp] scales its tests with is the largest column
    sum of absolute values: no column sum exceeds it, it is one of them (or
    the initial [0.0]), and it is never negative and never NaN -- a column
    whose sum is NaN is passed over. *)
Theorem norm1_is_max (n ndim : nat) (a : list float) :
  (forall j, j < n -> (details.norm1 n ndim a <? details.col_sum n ndim a j)%float = false) /\
  (details.norm1 n ndim a = 0%float \/
   exists j, j < n /\ details.norm1 n ndim a = details.col_sum n ndim a j) /\
  (0 <=? details.norm1 n ndim a)%float = true.
Proof.
  unfold details.norm1.
  apply (for_up_ind
           (fun j anorm =>
              (forall j', j' < j -> (anorm <? details.col_sum n ndim a j')%float = false) /\
              (anorm = 0%float \/ exists j', j' < n /\ anorm = details.col_sum n ndim a j') /\
              (0 <=? anorm)%float = true)); [lia| |].
  - split; [intros j' Hj'; lia|]. split; [left; reflexivity|reflexivity].
  - intros j anorm Hj (Hmax & Hwhich & Hpos). cbv zeta.
    destruct (anorm <? details.col_sum n ndim a j)%float eqn:Hlt.
    + split; [|split].
      * intros j' Hj'. destruct (decide (j' = j)) as [->|Hne].
        -- apply float_order.ltb_irrefl.
        -- destruct (details.col_sum n ndim a j <? details.col_sum n ndim a j')%float
             eqn:Hlt2; [|reflexivity].
           rewrite <- (Hmax j') by lia. symmetry.
           eapply float_order.ltb_trans; [exact Hlt|exact Hlt2].
      * right. exists j. split; [lia|reflexivity].
      * eapply float_order.leb_ltb_leb; [exact Hpos|exact Hlt].
    + split; [|split; assumption].
      intros j' Hj'. destruct (decide (j' = j)) as [->|Hne]; [exact Hlt|].
      apply Hmax. lia.
Qed.


(** X8: a pass of the elimination that does not bail out stores, in every
    row [i] below the pivot row, the multiplier [t = -(a[i][k] / pvt)] in
    column [k] and adds [t] times the pivot row to the columns right of [k]
    (or leaves them when [|t|] is not above [norm * EPSILON]); the rows up to
    [k] and the columns left of [k], which hold the earlier multipliers, stay
    as the interchange left them. *)
Theorem elimination_pass (n ndim : nat) (anorm : float) (k : nat)
    (a : list float) (p : list Z) :
  k < n - 1 -> n <= ndim -> (n - 1) * ndim + n <= length a ->
  let a_s := fst (fst (details.pivot_phase n ndim k (a, p))) in
  let p_s := snd (fst (details.pivot_phase n ndim k (a, p))) in
  let pvt := snd (details.pivot_phase n ndim k (a, p)) in
  (abs pvt <? anorm * details.EPSILON)%float = false ->
  exists a',
    details.elim_step n ndim anorm k (a, p) = Next (a', p_s) /\
    (forall i, k < i < n ->
       let t := (- (details.rd a_s (details.ix ndim i k) / pvt))%float in
       details.rd a' (details.ix ndim i k) = t /\
       forall j, k < j < n ->
         details.rd a' (details.ix ndim i j)
         = if (anorm * details.EPSILON <? abs t)%float
           then (details.rd a_s (details.ix ndim i j)
                 + details.rd a_s (details.ix ndim k j) * t)%float
           else details.rd a_s (details.ix ndim i j)) /\
    (forall q, (forall i j, k < i < n -> k <= j < n -> q <> details.ix ndim i j) ->
       details.rd a' q = details.rd a_s q).
Proof.
  intros Hk Hnd Hlen a_s p_s pvt Hbig.
  destruct (details.pivot_phase n ndim k (a, p)) as [[a1 p1] pvt1] eqn:Hph.
  simpl in a_s, p_s, pvt. subst a_s p_s pvt.
  destruct (elim_facts.pivot_phase_length _ _ _ _ _ _ _ _ Hph) as [Hl1 _].
  exists (for_up (k + 1) n (details.eliminate_row n ndim anorm pvt1 k) a1). split.
  - unfold details.elim_step. rewrite Hph, Hbig. reflexivity.
  - apply loop_facts.eliminate_rows_spec; lia.
Qed.

(** X6: when the elimination bails out in pass [k], [decomp] returns the
    pivot vector with the entries [k+1 .. n-2] exactly as the caller passed
    them: no row was ever recorded there. *)
Theorem decomp_exit_leaves_pivots (n ndim : Z) (w a : list float) (c : float)
    (pivot : list Z) (f : Z) (k : nat) (ak : list float) (pk : list Z)
    (a' : list float) (p' : list Z) :
  (2 <= n)%Z -> (n <= ndim)%Z -> Z.to_nat n <= length pivot ->
  k < Z.to_nat n - 1 ->
  elim_prefix n ndim a pivot k = Next (ak, pk) ->
  details.elim_step (Z.to_nat n) (Z.to_nat ndim)
    (details.norm1 (Z.to_nat n) (Z.to_nat ndim) a) k (ak, pk) = Exit (a', p') ->
  details.m_pivot (details.decomp n ndim (Some w) (details.Mem (Some a) c (Some pivot) f))
  = Some p' /\
  forall j, k < j < Z.to_nat n - 1 -> p' !!! j = pivot !!! j.
Proof.
  intros Hn Hd Hlen Hk Hpre Hex. split.
  - rewrite decomp_facts.decomp_unfold by assumption. cbv zeta.
    unfold elim_prefix in Hpre.
    rewrite (for_until_exit_at _ k _ _ _ _ Hk Hpre Hex). reflexivity.
  - intros j Hj.
    destruct (elim_facts.elim_prefix_length _ _ _ _ _ _ _ Hpre) as [_ Hpk].
    destruct (frame_facts.elim_step_frame (Z.to_nat n) (Z.to_nat ndim) _ k ak pk a' p' Hk
                ltac:(lia) (or_intror Hex))
      as (_ & Hoth & _).
    rewrite Hoth by lia. clear Hex Hoth.
    revert ak pk Hpre Hpk. induction k as [|k IH]; intros ak pk Hpre Hpk.
    + unfold elim_prefix in Hpre. simpl in Hpre. injection Hpre as <- <-.
      apply list_lookup_total_insert_ne. lia.
    + rewrite elim_facts.elim_prefix_snoc in Hpre.
      destruct (elim_prefix n ndim a pivot k) as [[a1 p1]|[a1 p1]] eqn:Hpre1;
        [|discriminate].
      destruct (elim_facts.elim_prefix_length _ _ _ _ _ _ _ Hpre1) as [_ Hp1].
      destruct (frame_facts.elim_step_frame (Z.to_nat n) (Z.to_nat ndim) _ k a1 p1 ak pk
                  ltac:(lia) ltac:(lia)
                  (or_introl Hpre)) as (_ & Hoth & _).
      rewrite Hoth by lia. apply (IH ltac:(lia) ltac:(lia) a1 p1 eq_refl Hp1).
Qed.

(** X9: [decomp] never reads a cell of its workspace before writing it:
    with two workspaces of [n] cells, whatever they hold, it returns the same
    buffers, condition and status. *)
Theorem decomp_workspace_irrelevant (n ndim : Z) (w1 w2 : list float) (s : details.mem) :
  length w1 = Z.to_nat n -> length w2 = Z.to_nat n ->
  details.decomp n ndim (Some w1) s = details.decomp n ndim (Some w2) s.
Proof. apply loop_facts.decomp_any_workspace. Qed.

(** X10: [solve] keeps the length of the right-hand side, and when the
    pivot entries it reads are rows of the system it changes no cell of [b]
    from index [n] on. *)
Theorem solve_frame (n ndim : Z) (a b : list float) (pivot : list Z) :
  details.pivots_in_range (Z.to_nat n) pivot = true ->
  length (details.solve n ndim a b pivot) = length b /\
  forall j, Z.to_nat n <= j ->
    details.rd (details.solve n ndim a b pivot) j = details.rd b j.
Proof.
  intros Hpiv. split; [apply loop_facts.solve_length|].
  intros j Hj. unfold details.solve.
  destruct (n =? 1)%Z eqn:E1.
  { apply Z.eqb_eq in E1. subst n. apply solve_facts.rd_insert_ne. simpl in Hj. lia. }
  set (N := Z.to_nat n) in *.
  assert (Hf : details.rd (details.forward_elim N (Z.to_nat ndim) a pivot b) j
               = details.rd b j).
  { unfold details.forward_elim.
    apply (for_up_ind (fun _ t => details.rd t j = details.rd b j)); [lia|reflexivity|].
    intros k t Hk Ht. rewrite loop_facts.forward_step_high; [exact Ht| |lia|exact Hj].
    apply loop_facts.pivots_in_range_elim; [exact Hpiv|lia]. }
  apply (for_down_ind (fun _ t => details.rd t j = details.rd b j)); [lia|exact Hf|].
  intros k t Hk Ht. rewrite solve_facts.back_step_other by lia. exact Ht.
Qed.

(** X11: the vector [x] that [solve] leaves satisfies the triangular
    system as the back substitution computes it: every [x[k]] is the
    forwarded [b[k]] minus the products [a[k][j] * x[j]] for [j > k], taken in
    this order, divided by [a[k][k]]. *)
Theorem back_substitution (n ndim : Z) (a b : list float) (pivot : list Z) :
  (1 <= n)%Z -> length b = Z.to_nat n ->
  let N := Z.to_nat n in
  let D := Z.to_nat ndim in
  let x := details.solve n ndim a b pivot in
  let fwd := if (n =? 1)%Z then b else details.forward_elim N D a pivot b in
  forall k, k < N ->
    details.rd x k
    = (for_up (k + 1) N
         (fun j t => (t - details.rd a (details.ix D k j) * details.rd x j)%float)
         (details.rd fwd k)
       / details.rd a (details.ix D k k))%float.
Proof. exact (loop_facts.back_substitution_every n ndim a b pivot). Qed.

(** ** Closed instances *)

Lemma elimination_pass_witness :
  exists a',
    details.elim_step 2 2 3 0 ([2; 1; 1; 3]%float, [0; 1]%Z) = Next (a', [0; 1]%Z) /\
    details.rd a' 2 = (-0.5)%float /\ details.rd a' 3 = 2.5%float /\
    details.rd a' 0 = 2%float /\ details.rd a' 1 = 1%float.
Proof.
  destruct (elimination_pass 2 2 3 0 [2; 1; 1; 3]%float [0; 1]%Z
              ltac:(lia) ltac:(lia) ltac:(simpl; lia) eq_refl)
    as (a' & Hstep & Hrows & Hrest).
  exists a'. split; [exact Hstep|].
  destruct (Hrows 1%nat ltac:(lia)) as [H10 H1j]. specialize (H1j 1%nat ltac:(lia)).
  split; [exact H10|]. split; [exact H1j|]. split.
  - apply (Hrest 0%nat). intros i j Hi Hj. unfold details.ix. lia.
  - apply (Hrest 1%nat). intros i j Hi Hj. unfold details.ix. lia.
Defined.

(** A matrix of order three with a zero first column: the first pass bails
    out, and [pivot[1]] still holds the caller's [8]. *)
Lemma decomp_exit_leaves_pivots_witness :
  details.m_pivot
    (details.decomp 3 3 (Some [0; 0; 0]%float)
       (details.Mem (Some [0; 1; 2; 0; 3; 4; 0; 5; 6]%float) 0%float (Some [7; 8; 9]%Z) 0))
  = Some [0; 8; 1]%Z /\
  ([0; 8; 1]%Z : list Z) !!! 1%nat = ([7; 8; 9]%Z : list Z) !!! 1%nat.
Proof.
  destruct (decomp_exit_leaves_pivots 3 3 [0; 0; 0]%float
              [0; 1; 2; 0; 3; 4; 0; 5; 6]%float 0%float [7; 8; 9]%Z 0 0%nat
              [0; 1; 2; 0; 3; 4; 0; 5; 6]%float [7; 8; 1]%Z
              [0; 1; 2; 0; 3; 4; 0; 5; 6]%float [0; 8; 1]%Z
              ltac:(lia) ltac:(lia) ltac:(simpl; lia) ltac:(simpl; lia) eq_refl eq_refl)
    as [Hp Hj].
  split; [exact Hp|]. apply (Hj 1%nat). simpl. lia.
Defined.

Lemma decomp_workspace_irrelevant_witness :
  details.decomp 2 2 (Some [7; 8]%float)
    (details.Mem (Some [2; 1; 1; 3]%float) 0%float (Some [0; 0]%Z) 0)
  = details.decomp 2 2 (Some [nan; infinity]%float)
      (details.Mem (Some [2; 1; 1; 3]%float) 0%float (Some [0; 0]%Z) 0).
Proof.
  apply (decomp_workspace_irrelevant 2 2 [7; 8]%float [nan; infinity]%float); reflexivity.
Defined.

Lemma solve_frame_witness :
  length (details.solve 2 2 [2; 1; -0.5; 2.5]%float [3; 4; 7]%float [0; 1]%Z) = 3%nat /\
  details.rd (details.solve 2 2 [2; 1; -0.5; 2.5]%float [3; 4; 7]%float [0; 1]%Z) 2
  = 7%float.
Proof.
  destruct (solve_frame 2 2 [2; 1; -0.5; 2.5]%float [3; 4; 7]%float [0; 1]%Z eq_refl)
    as [Hl Hj].
  split; [exact Hl|]. apply (Hj 2%nat). simpl. lia.
Defined.

Lemma back_substitution_witness :
  let x := details.solve 2 2 [2; 1; -0.5; 2.5]%float [3; 4]%float [0; 1]%Z in
  details.rd x 0
  = ((details.rd (details.forward_elim 2 2 [2; 1; -0.5; 2.5]%float [0; 1]%Z [3; 4]%float) 0
      - 1 * details.rd x 1) / 2)%float.
Proof.
  intros x.
  exact (back_substitution 2 2 [2; 1; -0.5; 2.5]%float [3; 4]%float [0; 1]%Z
           ltac:(lia) eq_refl 0%nat ltac:(simpl; lia)).
Defined.

(** * Further properties of the classes *)

Section ClassExtras.
Variable junk_double : block -> nat -> float.
Variable junk_int : nat -> Z.
Variable malloc_fails : bool.

Local Abbreviation Decomp_op := (Decomp_call junk_double junk_int malloc_fails).
Local Abbreviation Solve_op := (Solve_call junk_double junk_int malloc_fails).

Lemma fill_step_none (xs : list float) (ind : nat) :
  snd (foldl (fun st j =>
                let ind := fst st in
                (S ind,
                 d ← snd st;
                 if decide (ind < length d) then Some (<[ind := j]> d) else None))
             (ind, @None (list float)) xs) = None.
Proof. revert ind. induction xs as [|x xs IH]; intros ind; [reflexivity|apply IH]. Qed.

Lemma fill_loop_overflow (xs : list float) : forall (ind : nat) (d : list float),
  ind <= length d -> length d < ind + length xs ->
  snd (foldl (fun st j =>
                let ind := fst st in
                (S ind,
                 d ← snd st;
                 if decide (ind < length d) then Some (<[ind := j]> d) else None))
             (ind, Some d) xs) = None.
Proof.
  induction xs as [|x xs IH]; intros ind d Hle Hlt; simpl in *; [lia|].
  destruct (decide (ind < length d)) as [Hi|Hi].
  - apply IH; rewrite length_insert; lia.
  - apply fill_step_none.
Qed.

(** The copy loop overflows the block exactly when the rows hold more
    values than the block has cells; otherwise the block keeps its length. *)
Lemma fill_spec (matrix : list (list float)) (d : list float) :
  (length d < length (concat matrix) -> fill matrix d = None) /\
  (length (concat matrix) <= length d ->
   exists d', fill matrix d = Some d' /\ length d' = length d).
Proof.
  unfold fill. split.
  - intros H. apply fill_loop_overflow; simpl; lia.
  - intros H. rewrite fill_loop by (simpl; lia). simpl. eexists. split; [reflexivity|].
    rewrite length_app, length_drop. lia.
Qed.

(** X12: [Decomp::operator()] throws for an empty matrix and for one whose
    first row is not as long as the matrix has rows, leaving the object as it
    was; with more values in the rows than [n * n] its copy loop writes past
    the block; in every other case it returns with [size_ = n] and two blocks
    of [n * n] cells. *)
Theorem Decomp_call_outcome (matrix : list (list float)) (self : Decomp) :
  let n := length matrix in
  (matrix = [] -> Decomp_op matrix self = Throws "Check matrix" self) /\
  (forall row0 rest, matrix = row0 :: rest ->
     (n <> length row0 -> Decomp_op matrix self = Throws "Check size of matrix" self) /\
     (n = length row0 -> n * n < length (concat matrix) ->
      Decomp_op matrix self = Undefined) /\
     (n = length row0 -> length (concat matrix) <= n * n ->
      exists dec d p,
        Decomp_op matrix self = Returns dec /\
        size_ dec = Z.of_nat n /\ data_ dec = Some d /\ pivot_ dec = Some p /\
        length d = n * n /\ length p = n * n)).
Proof.
  intros n. split; [intros ->; reflexivity|].
  intros row0 rest E. unfold n. rewrite E. unfold Decomp_call.
  set (M := row0 :: rest). split; [|split].
  - intros H. destruct (decide (length M = length row0)); [contradiction|reflexivity].
  - intros H Hbig. destruct (decide (length M = length row0)); [|contradiction].
    rewrite (proj1 (fill_spec M _)); [reflexivity|].
    rewrite new_double_length. exact Hbig.
  - intros H Hfit. destruct (decide (length M = length row0)); [|contradiction].
    destruct (proj2 (fill_spec M (new_double junk_double data_block (length M * length M))))
      as (d' & -> & Hd'); [rewrite new_double_length; exact Hfit|].
    rewrite new_double_length in Hd'.
    destruct (decomp_buffers_kept (Z.of_nat (length M)) (Z.of_nat (length M))
                (malloc_double junk_double malloc_fails (length M)) d' (cond_ self)
                (new_int junk_int (length M * length M)) (flag_ self))
      as (a' & p' & Ha & Hp & Hla & Hlp & _).
    { rewrite new_int_length, Nat2Z.id. nia. }
    eexists _, a', p'. split; [reflexivity|]. simpl.
    split; [reflexivity|]. split; [exact Ha|]. split; [exact Hp|].
    rewrite Hla, Hlp, new_int_length. split; [exact Hd'|reflexivity].
Qed.

(** What a returning call of [Solve::operator()] tells: the object held a
    block of its own, the factorization returned with pivot entries in
    range, and the store is the released one with the solution in a fresh
    block. *)
Lemma Solve_call_returns_inv (A : list (list float)) (rb : loc) (self self' : Solve)
    (h h' : store) :
  Solve_op A rb self h = Returns (self', h') ->
  exists bv dec,
    h !! rb = Some bv /\ length A = length bv /\ owned self rb h /\
    Decomp_op A Decomp_new = Returns dec /\
    details.pivots_in_range (length A) (default [] (pivot_ dec)) = true /\
    let p := fresh (dom (released self h)) in
    let n := Z.of_nat (length A) in
    self' = MkSolve (Some p) /\
    h' = <[p := details.solve n n (default [] (data_ dec)) bv (default [] (pivot_ dec))]>
           (released self h).
Proof.
  intros Hret.
  destruct (h !! rb) as [bv|] eqn:Hb; [|unfold Solve_call in Hret; rewrite Hb in Hret;
                                        discriminate].
  assert (Hlen : length A = length bv).
  { unfold Solve_call in Hret. rewrite Hb in Hret.
    destruct (decide (length A = length bv)); [assumption|discriminate]. }
  assert (Hown : owned self rb h).
  { unfold Solve_call in Hret. rewrite Hb in Hret.
    destruct (decide (length A = length bv)); [|discriminate].
    unfold owned. destruct (data_right_ self) as [q|]; [|exact I].
    destruct (decide (is_Some (h !! q))) as [Hq|]; [|discriminate].
    split; [|exact Hq]. intros ->. rewrite lookup_delete_eq in Hret. discriminate. }
  destruct (Decomp_op A Decomp_new) as [dec|what d|] eqn:Hdec.
  2,3: exfalso; revert Hret; unfold Solve_call; rewrite Hb;
       destruct (decide (length A = length bv)); [|discriminate];
       destruct (match data_right_ self with
                 | Some q => if decide (is_Some (h !! q)) then Some (delete q h) else None
                 | None => Some h
                 end) as [h1|]; [|discriminate];
       destruct (h1 !! rb); [|discriminate];
       destruct (<[fresh (dom h1) := _]> h1 !! rb); [|discriminate];
       rewrite Hdec; discriminate.
  destruct (details.pivots_in_range (length A) (default [] (pivot_ dec))) eqn:Hpiv.
  - destruct (Solve_call_runs junk_double junk_int malloc_fails A rb bv self h dec
                Hb Hlen Hown Hdec Hpiv) as [_ Hrun].
    rewrite Hrun in Hret. injection Hret as <- <-.
    exists bv, dec. repeat split; assumption.
  - exfalso. revert Hret. unfold Solve_call. rewrite Hb.
    destruct (decide (length A = length bv)); [|discriminate].
    destruct (match data_right_ self with
              | Some q => if decide (is_Some (h !! q)) then Some (delete q h) else None
              | None => Some h
              end) as [h1|]; [|discriminate].
    destruct (h1 !! rb); [|discriminate].
    destruct (<[fresh (dom h1) := _]> h1 !! rb); [|discriminate].
    rewrite Hdec, Hpiv. discriminate.
Qed.

Lemma released_fresh (self : Solve) (h : store) :
  released self h !! fresh (dom (released self h)) = None.
Proof. apply not_elem_of_dom, is_fresh. Qed.

(** X13: a right-hand side whose length differs from the number of rows
    is rejected with "Check data" and nothing is touched; but a matrix that
    the factorization rejects is found out only after the object has
    released its previous block and copied [b] into a new one, and that is
    the state the exception leaves behind. *)
Theorem Solve_call_throws (A : list (list float)) (rb : loc) (bv : list float)
    (self : Solve) (h : store) :
  h !! rb = Some bv -> owned self rb h ->
  (length A <> length bv -> Solve_op A rb self h = Throws "Check data" (self, h)) /\
  (length A = length bv ->
   forall what d, Decomp_op A Decomp_new = Throws what d ->
     let p := fresh (dom (released self h)) in
     Solve_op A rb self h = Throws what (MkSolve (Some p), <[p := bv]> (released self h))).
Proof.
  intros Hb Hown. split.
  - intros Hne. unfold Solve_call. rewrite Hb.
    destruct (decide (length A = length bv)); [contradiction|reflexivity].
  - intros Hlen what d Hdec p.
    pose proof (released_lookup junk_int _ _ _ _ Hown Hb) as Hb1.
    pose proof (fresh_not_live _ _ _ Hb1) as Hp. fold p in Hp.
    unfold Solve_call. rewrite Hb.
    destruct (decide (length A = length bv)) as [_|]; [|contradiction].
    assert (Hfree :
      match data_right_ self with
      | None => Some h
      | Some q => if decide (is_Some (h !! q)) then Some (delete q h) else None
      end = Some (released self h)).
    { unfold owned, released in *. destruct (data_right_ self) as [q|]; [|reflexivity].
      destruct Hown as [_ Hlive]. destruct (decide (is_Some (h !! q))); tauto. }
    rewrite Hfree, Hb1. fold p.
    rewrite lookup_insert_ne by exact Hp. rewrite Hb1, Hdec.
    rewrite lookup_total_insert_eq.
    rewrite copy_in_same_length by apply new_double_length.
    rewrite insert_insert_eq. reflexivity.
Qed.

(** X14: a call of [Solve::operator()] that returns leaves an object that
    owns its block again, and has touched no block of the store but its own:
    the previous one is released, a fresh one holds the solution, every
    other block is as before. *)
Theorem Solve_call_store (A : list (list float)) (rb : loc) (self self' : Solve)
    (h h' : store) :
  Solve_op A rb self h = Returns (self', h') ->
  exists p,
    data_right_ self' = Some p /\
    owned self' rb h' /\
    released self h !! p = None /\
    forall q, q <> p -> h' !! q = released self h !! q.
Proof.
  intros Hret.
  destruct (Solve_call_returns_inv _ _ _ _ _ _ Hret)
    as (bv & dec & Hb & Hlen & Hown & Hdec & Hpiv & -> & ->).
  pose proof (released_lookup junk_int _ _ _ _ Hown Hb) as Hb1.
  pose proof (fresh_not_live _ _ _ Hb1) as Hp.
  eexists. split; [reflexivity|]. split; [|split].
  - unfold owned. simpl. split; [exact Hp|]. rewrite lookup_insert_eq. eauto.
  - apply released_fresh.
  - intros q Hq. apply lookup_insert_ne. congruence.
Qed.

(** X15: solving and then destroying the object returns the store to
    what it was after the release of the object's previous block: the block
    of the solution is freed, nothing leaks, nothing else is lost. *)
Theorem Solve_call_then_dtor (A : list (list float)) (rb : loc) (self self' : Solve)
    (h h' : store) :
  Solve_op A rb self h = Returns (self', h') ->
  Solve_dtor self' h' = Some (released self h).
Proof.
  intros Hret.
  destruct (Solve_call_returns_inv _ _ _ _ _ _ Hret)
    as (bv & dec & Hb & Hlen & Hown & Hdec & Hpiv & -> & ->).
  unfold Solve_dtor, Solve_free. simpl.
  rewrite lookup_insert_eq.
  destruct (decide (is_Some (Some _))) as [_|Hno]; [|exfalso; apply Hno; eauto].
  rewrite delete_insert_id by apply released_fresh. reflexivity.
Qed.

(** X16: a second call on the same object releases the block of the
    first solution before it allocates its own: the store holds as many
    blocks after the second call as after the first, and every block other
    than the two solution blocks is as the first call left it. *)
Theorem Solve_call_twice (A B : list (list float)) (rb rb2 : loc)
    (self s1 s2 : Solve) (h h1 h2 : store) :
  Solve_op A rb self h = Returns (s1, h1) ->
  Solve_op B rb2 s1 h1 = Returns (s2, h2) ->
  size h2 = size h1 /\
  forall q, Some q <> data_right_ s1 -> Some q <> data_right_ s2 -> h2 !! q = h1 !! q.
Proof.
  intros Hret1 Hret2.
  destruct (Solve_call_returns_inv _ _ _ _ _ _ Hret1)
    as (bv & dec & Hb & Hlen & Hown & Hdec & Hpiv & E1 & E2).
  cbv zeta in E1, E2. subst s1 h1.
  pose proof (released_fresh self h) as Hfresh.
  set (h0 := released self h) in *. set (p := fresh (dom h0)) in *.
  destruct (Solve_call_returns_inv _ _ _ _ _ _ Hret2)
    as (bv2 & dec2 & _ & _ & _ & _ & _ & E1 & E2).
  cbv zeta in E1, E2. unfold released in E1, E2. simpl in E1, E2.
  rewrite delete_insert_id in E1, E2 by exact Hfresh.
  subst s2 h2. simpl. split.
  - rewrite !map_size_insert_None by exact Hfresh. reflexivity.
  - intros q Hq1 Hq2. rewrite !lookup_insert_ne by congruence. reflexivity.
Qed.

End ClassExtras.

(** X17: for a square matrix neither operator depends on what the fresh
    [double] blocks happen to hold: every cell of [data_], of the workspace
    and of [data_right_] is written before it is read. *)
Theorem junk_double_irrelevant (jd1 jd2 : block -> nat -> float) (junk_int : nat -> Z)
    (malloc_fails : bool) (A : list (list float)) :
  square A ->
  (forall self, Decomp_call jd1 junk_int malloc_fails A self
                = Decomp_call jd2 junk_int malloc_fails A self) /\
  (forall rb self h, Solve_call jd1 junk_int malloc_fails A rb self h
                     = Solve_call jd2 junk_int malloc_fails A rb self h).
Proof.
  intros Hsq.
  assert (HD : forall self, Decomp_call jd1 junk_int malloc_fails A self
                            = Decomp_call jd2 junk_int malloc_fails A self).
  { intros self. destruct A as [|row0 rest] eqn:EA; [reflexivity|]. rewrite <- EA in *.
    assert (Hne : A <> []) by (rewrite EA; discriminate).
    rewrite !Decomp_call_square by assumption. cbv zeta.
    unfold malloc_double. destruct malloc_fails; [reflexivity|].
    rewrite (loop_facts.decomp_any_workspace _ _
               (new_double jd1 work_block (length A))
               (new_double jd2 work_block (length A)))
      by (rewrite new_double_length; lia).
    reflexivity. }
  split; [exact HD|].
  intros rb self h. unfold Solve_call.
  destruct (h !! rb) as [b0|]; [|reflexivity].
  destruct (decide (length A = length b0)); [|reflexivity].
  destruct (match data_right_ self with
            | Some q => if decide (is_Some (h !! q)) then Some (delete q h) else None
            | None => Some h
            end) as [h1|]; [|reflexivity].
  destruct (h1 !! rb) as [b1|] eqn:Hb1; [|reflexivity].
  pose proof (fresh_not_live _ _ _ Hb1) as Hp.
  rewrite !lookup_insert_ne by exact Hp. rewrite Hb1.
  rewrite !lookup_total_insert_eq.
  rewrite !copy_in_same_length by apply new_double_length.
  rewrite !insert_insert_eq. rewrite HD. reflexivity.
Qed.

(** ** Closed instances *)

Lemma Decomp_call_outcome_witness :
  Decomp_call zero_double zero_int false [[1; 2]; [3; 4; 5]]%float Decomp_new = Undefined /\
  Decomp_call zero_double zero_int false [[1; 2; 3]; [4; 5; 6]]%float Decomp_new
  = Throws "Check size of matrix" Decomp_new.
Proof.
  destruct (Decomp_call_outcome zero_double zero_int false
              [[1; 2]; [3; 4; 5]]%float Decomp_new) as [_ H1].
  destruct (Decomp_call_outcome zero_double zero_int false
              [[1; 2; 3]; [4; 5; 6]]%float Decomp_new) as [_ H2].
  split.
  - apply (proj1 (proj2 (H1 _ _ eq_refl))); simpl; lia.
  - apply (proj1 (H2 _ _ eq_refl)). simpl. lia.
Defined.

(** An empty matrix with an empty right-hand side: the sizes agree, so the
    object allocates before the factorization throws. *)
Lemma Solve_call_throws_witness :
  Solve_call zero_double zero_int false [] 0%nat Solve_new {[ 0%nat := [] ]}
  = Throws "Check matrix" (MkSolve (Some 1%nat), {[ 0%nat := []; 1%nat := [] ]}) /\
  Solve_call zero_double zero_int false [[1%float]] 0%nat Solve_new {[ 0%nat := [] ]}
  = Throws "Check data" (Solve_new, {[ 0%nat := [] ]}).
Proof.
  assert (Hb : ({[ 0%nat := [] ]} : store) !! 0%nat = Some []) by reflexivity.
  destruct (Solve_call_throws zero_double zero_int false [] 0%nat [] Solve_new
              {[ 0%nat := [] ]} Hb I) as [_ H1].
  destruct (Solve_call_throws zero_double zero_int false [[1%float]] 0%nat [] Solve_new
              {[ 0%nat := [] ]} Hb I) as [H2 _].
  split.
  - rewrite (H1 eq_refl _ Decomp_new eq_refl). reflexivity.
  - apply H2. simpl. lia.
Defined.

Lemma Solve_call_store_witness :
  exists p,
    data_right_ (MkSolve (Some 1%nat)) = Some p /\
    owned (MkSolve (Some 1%nat)) 0%nat {[ 0%nat := [10%float]; 1%nat := [2%float] ]} /\
    released Solve_new ({[ 0%nat := [10%float] ]} : store) !! p = None /\
    forall q, q <> p ->
      ({[ 0%nat := [10%float]; 1%nat := [2%float] ]} : store) !! q
      = released Solve_new ({[ 0%nat := [10%float] ]} : store) !! q.
Proof.
  apply (Solve_call_store zero_double zero_int false [[5%float]] 0%nat Solve_new
           (MkSolve (Some 1%nat)) {[ 0%nat := [10%float] ]}
           {[ 0%nat := [10%float]; 1%nat := [2%float] ]}).
  reflexivity.
Defined.

Lemma Solve_call_then_dtor_witness :
  Solve_dtor (MkSolve (Some 1%nat)) {[ 0%nat := [10%float]; 1%nat := [2%float] ]}
  = Some (released Solve_new {[ 0%nat := [10%float] ]}).
Proof.
  apply (Solve_call_then_dtor zero_double zero_int false [[5%float]] 0%nat Solve_new
           (MkSolve (Some 1%nat)) {[ 0%nat := [10%float] ]}
           {[ 0%nat := [10%float]; 1%nat := [2%float] ]}).
  reflexivity.
Defined.

Lemma Solve_call_twice_witness :
  size ({[ 0%nat := [10%float]; 1%nat := [5%float] ]} : store)
  = size ({[ 0%nat := [10%float]; 1%nat := [2%float] ]} : store) /\
  forall q, Some q <> data_right_ (MkSolve (Some 1%nat)) ->
            Some q <> data_right_ (MkSolve (Some 1%nat)) ->
    ({[ 0%nat := [10%float]; 1%nat := [5%float] ]} : store) !! q
    = ({[ 0%nat := [10%float]; 1%nat := [2%float] ]} : store) !! q.
Proof.
  apply (Solve_call_twice zero_double zero_int false [[5%float]] [[2%float]] 0%nat 0%nat
           Solve_new (MkSolve (Some 1%nat)) (MkSolve (Some 1%nat))
           {[ 0%nat := [10%float] ]}
           {[ 0%nat := [10%float]; 1%nat := [2%float] ]}
           {[ 0%nat := [10%float]; 1%nat := [5%float] ]}); reflexivity.
Defined.

Lemma junk_double_irrelevant_witness :
  Decomp_call zero_double zero_int false [[2; 1]; [1; 3]]%float Decomp_new
  = Decomp_call (fun _ _ => nan) zero_int false [[2; 1]; [1; 3]]%float Decomp_new.
Proof.
  apply (proj1 (junk_double_irrelevant zero_double (fun _ _ => nan) zero_int false
                  [[2; 1]; [1; 3]]%float ltac:(repeat constructor))).
Defined.

(** ** What the contents of the pivot block decide *)

Module pivot_content.
Import details solve_facts elim_facts.






End pivot_content.



(** * The passes of the elimination, as [decomp] returns them *)

Module pass_facts.
Import details solve_facts elim_facts.

(** After the pivot phase of pass [k], row [k] holds, from column [k] on,
    what row [m] held. *)
Lemma pivot_phase_row (n ndim k : nat) (a : list float) (p : list Z) :
  k < n -> n <= ndim -> (n - 1) * ndim + n <= length a ->
  let m := fst (find_pivot n ndim a k) in
  forall j, k <= j < n ->
    rd (fst (fst (pivot_phase n ndim k (a, p)))) (ix ndim k j) = rd a (ix ndim m j).
Proof.
  intros Hk Hnd Hlen m j Hj. unfold pivot_phase. simpl. fold m.
  destruct (find_pivot_spec n ndim a k Hk) as (Hm & _). fold m in Hm.
  destruct (decide (m = k)) as [->|Hne]; [reflexivity|]. simpl.
  destruct (swap_rows_spec n ndim m k a ltac:(lia) Hnd ltac:(lia) Hk Hne Hlen) as [Hsw _].
  apply Hsw. exact Hj.
Qed.

(** The pivot phase of pass [k] leaves the rows above [k] alone. *)
Lemma pivot_phase_above (n ndim k : nat) (a : list float) (p : list Z) (i j : nat) :
  k < n -> n <= ndim -> (n - 1) * ndim + n <= length a -> i < k -> j < n ->
  rd (fst (fst (pivot_phase n ndim k (a, p)))) (ix ndim i j) = rd a (ix ndim i j).
Proof.
  intros Hk Hnd Hlen Hi Hj. unfold pivot_phase. simpl.
  destruct (find_pivot_spec n ndim a k Hk) as (Hm & _).
  destruct (decide (fst (find_pivot n ndim a k) = k)) as [E|Hne]; [reflexivity|]. simpl.
  destruct (swap_rows_spec n ndim (fst (find_pivot n ndim a k)) k a ltac:(lia) Hnd
              ltac:(lia) Hk Hne Hlen) as [_ Hrest].
  apply Hrest. intros j' Hj'. split; intros E; apply ix_inj in E; lia.
Qed.

(** A pass, however it ends, returns the pivot vector of its pivot phase,
    keeps the rows above [k], and keeps row [k] as the pivot phase left it. *)
Lemma elim_step_rows (n ndim : nat) (anorm : float) (k : nat) a p a2 p2 :
  k < n - 1 -> n <= ndim -> (n - 1) * ndim + n <= length a ->
  elim_step n ndim anorm k (a, p) = Next (a2, p2) \/
  elim_step n ndim anorm k (a, p) = Exit (a2, p2) ->
  p2 = snd (fst (pivot_phase n ndim k (a, p))) /\
  (forall i j, i < k -> j < n -> rd a2 (ix ndim i j) = rd a (ix ndim i j)) /\
  (forall j, j < n ->
     rd a2 (ix ndim k j) = rd (fst (fst (pivot_phase n ndim k (a, p)))) (ix ndim k j)).
Proof.
  intros Hk Hnd Hlen Hstep.
  pose proof (fun i j => pivot_phase_above n ndim k a p i j ltac:(lia) Hnd Hlen) as Habove.
  revert Hstep Habove. unfold elim_step.
  destruct (pivot_phase n ndim k (a, p)) as [[a1 p1] pvt] eqn:Hph. simpl.
  destruct (pivot_phase_length _ _ _ _ _ _ _ _ Hph) as [Hl1 _].
  intros Hstep Habove.
  destruct (_ <? _)%float; destruct Hstep as [H|H]; try discriminate; injection H as <- <-.
  - split; [reflexivity|]. split; [exact Habove|]. intros j Hj. reflexivity.
  - destruct (loop_facts.eliminate_rows_spec n ndim anorm pvt k a1 ltac:(lia) Hnd ltac:(lia))
      as [_ Hrest].
    split; [reflexivity|]. split.
    + intros i j Hi Hj. rewrite Hrest; [apply Habove; assumption|].
      intros i' j' Hi' Hj' E. apply ix_inj in E; lia.
    + intros j Hj. apply Hrest. intros i' j' Hi' Hj' E. apply ix_inj in E; lia.
Qed.

(** [pivot[n-1]] is the parity of the interchanges made, also when the
    elimination has bailed out. *)
Lemma elim_run_parity (n ndim : Z) (a : list float) (pivot : list Z) (k : nat) ak pk :
  (2 <= n)%Z -> (n <= ndim)%Z -> Z.to_nat n <= length pivot ->
  (Z.to_nat n - 1) * Z.to_nat ndim + Z.to_nat n <= length a ->
  k <= Z.to_nat n - 1 ->
  elim_prefix n ndim a pivot k = Next (ak, pk) \/
  elim_prefix n ndim a pivot k = Exit (ak, pk) ->
  pk !!! (Z.to_nat n - 1)%nat = ((-1) ^ Z.of_nat (interchanges n ndim a pivot k))%Z.
Proof.
  intros Hn Hd Hlp Hla. revert ak pk. induction k as [|k IH]; intros ak pk Hk Hrun.
  - destruct Hrun as [H|H]; [|discriminate].
    apply (elim_prefix_parity n ndim a pivot 0 ak pk Hn Hlp Hk H).
  - rewrite elim_prefix_snoc in Hrun. simpl.
    destruct (elim_prefix n ndim a pivot k) as [[a1 p1]|[a1 p1]] eqn:Hpre.
    + destruct (elim_prefix_length _ _ _ _ _ _ _ Hpre) as [Ha1 Hp1].
      destruct (elim_step_rows (Z.to_nat n) (Z.to_nat ndim) _ k a1 p1 ak pk
                  ltac:(lia) ltac:(lia) ltac:(lia) Hrun) as (-> & _).
      destruct (pivot_phase_pivot (Z.to_nat n) (Z.to_nat ndim) k a1 p1
                  ltac:(lia) ltac:(lia)) as [_ Hpar].
      rewrite Hpar, (IH a1 p1 ltac:(lia) (or_introl eq_refl)). simpl.
      destruct (decide _); [rewrite Nat.add_0_r; reflexivity|].
      rewrite Nat.add_1_r, Nat2Z.inj_succ, Z.pow_succ_r by lia. lia.
    + destruct Hrun as [H|H]; [discriminate|]. injection H as <- <-.
      rewrite Nat.add_0_r. apply (IH a1 p1 ltac:(lia) (or_intror eq_refl)).
Qed.

(** What pass [k] recorded and the pivot row it put in place are still
    there in every later state of the elimination. *)
Lemma recorded_persists (n ndim : Z) (a : list float) (pivot : list Z) (k : nat) ak pk :
  (2 <= n)%Z -> (n <= ndim)%Z -> Z.to_nat n <= length pivot ->
  (Z.to_nat n - 1) * Z.to_nat ndim + Z.to_nat n <= length a ->
  elim_prefix n ndim a pivot k = Next (ak, pk) ->
  let N := Z.to_nat n in
  let D := Z.to_nat ndim in
  let m := fst (find_pivot N D ak k) in
  forall d aK pK,
    k + 1 + d <= N - 1 ->
    elim_prefix n ndim a pivot (k + 1 + d) = Next (aK, pK) \/
    elim_prefix n ndim a pivot (k + 1 + d) = Exit (aK, pK) ->
    pK !!! k = Z.of_nat m /\
    forall j, k <= j < N -> rd aK (ix D k j) = rd ak (ix D m j).
Proof.
  intros Hn Hd Hlp Hla Hpre N D m.
  destruct (elim_prefix_length _ _ _ _ _ _ _ Hpre) as [Hak Hpk].
  induction d as [|d IH]; intros aK pK HK Hrun.
  - replace (k + 1 + 0) with (S k) in Hrun by lia.
    rewrite elim_prefix_snoc, Hpre in Hrun. fold N D in Hrun.
    destruct (elim_step_rows N D _ k ak pk aK pK ltac:(lia) ltac:(unfold N, D; lia)
                ltac:(unfold N, D in *; lia) Hrun) as (-> & _ & Hrow).
    split.
    + apply (pivot_phase_pivot N D k ak pk); unfold N in *; lia.
    + intros j Hj. rewrite Hrow by lia.
      apply (pivot_phase_row N D k ak pk); unfold N, D in *; lia.
  - replace (k + 1 + S d) with (S (k + 1 + d)) in Hrun by lia.
    rewrite elim_prefix_snoc in Hrun. fold N D in Hrun.
    destruct (elim_prefix n ndim a pivot (k + 1 + d)) as [[a1 p1]|[a1 p1]] eqn:Hpre1.
    + destruct (IH a1 p1 ltac:(lia) (or_introl eq_refl)) as [Hrec Hrow].
      destruct (elim_prefix_length _ _ _ _ _ _ _ Hpre1) as [Ha1 Hp1].
      destruct (elim_step_rows N D _ (k + 1 + d) a1 p1 aK pK ltac:(lia)
                  ltac:(unfold N, D; lia) ltac:(unfold N, D in *; lia) Hrun)
        as (-> & Habove & _).
      split.
      * rewrite pivot_phase_other by lia. exact Hrec.
      * intros j Hj. rewrite Habove by lia. apply Hrow, Hj.
    + destruct Hrun as [H|H]; [discriminate|]. injection H as <- <-.
      apply (IH a1 p1 ltac:(lia) (or_intror eq_refl)).
Qed.

(** The buffers [decomp] returns are those of the last state of its
    elimination loop. *)
Lemma decomp_returns_run (n ndim : Z) (work a : list float) (c : float)
    (pivot : list Z) (f : Z) :
  (2 <= n)%Z -> (n <= ndim)%Z ->
  let r := decomp n ndim (Some work) (Mem (Some a) c (Some pivot) f) in
  exists aF pF,
    m_a r = Some aF /\ m_pivot r = Some pF /\
    (elim_prefix n ndim a pivot (Z.to_nat n - 1) = Next (aF, pF) \/
     elim_prefix n ndim a pivot (Z.to_nat n - 1) = Exit (aF, pF)).
Proof.
  intros Hn Hd r. unfold r. rewrite decomp_facts.decomp_unfold by assumption. cbv zeta.
  fold (elim_prefix n ndim a pivot (Z.to_nat n - 1)).
  destruct (elim_prefix n ndim a pivot (Z.to_nat n - 1)) as [[aF pF]|[aF pF]].
  - exists aF, pF. destruct (for_until (seq 0 (Z.to_nat n)) _ work); simpl; auto.
  - exists aF, pF. simpl. auto.
Qed.

End pass_facts.

(** C5: in every pass [k] that the elimination of [decomp] reaches, the
    row [m] chosen is a row of [k .. n-1] whose entry in column [k] no other
    of these rows exceeds in absolute value, and the first such row; the
    buffer is untouched when [m = k], and otherwise the rows [m] and [k] are
    exchanged over the columns [k .. n-1] and nowhere else; after the pass
    [pivot[n-1]] is [-1] to the number of interchanges made so far, hence [1]
    or [-1].  And this is what [decomp] returns: its pivot vector has
    [pivot[k] = m] and [pivot[n-1] = (-1)^(interchanges)], and row [k] of its
    factor buffer holds, from column [k] on, what row [m] held when the pass
    began. *)
Theorem decomp_pivot_passes (n ndim : Z) (work a : list float) (c : float)
    (pivot : list Z) (f : Z) (k : nat) (ak : list float) (pk : list Z) :
  (2 <= n)%Z -> (n <= ndim)%Z ->
  let N := Z.to_nat n in
  let D := Z.to_nat ndim in
  N <= length pivot -> (N - 1) * D + N <= length a ->
  k < N - 1 ->
  elim_prefix n ndim a pivot k = Next (ak, pk) ->
  let m := fst (details.find_pivot N D ak k) in
  let a' := fst (fst (details.pivot_phase N D k (ak, pk))) in
  let p' := snd (fst (details.pivot_phase N D k (ak, pk))) in
  let r := details.decomp n ndim (Some work) (details.Mem (Some a) c (Some pivot) f) in
  (k <= m < N /\
   (forall i, k <= i < N ->
      (abs (details.rd ak (details.ix D m k)) <? abs (details.rd ak (details.ix D i k)))%float
      = false) /\
   (forall i, k <= i < m ->
      (abs (details.rd ak (details.ix D m k)) <=? abs (details.rd ak (details.ix D i k)))%float
      = false) /\
   p' !!! k = Z.of_nat m /\
   (m = k -> a' = ak) /\
   (m <> k ->
      (forall j, k <= j < N ->
         details.rd a' (details.ix D k j) = details.rd ak (details.ix D m j) /\
         details.rd a' (details.ix D m j) = details.rd ak (details.ix D k j)) /\
      (forall q, (forall j, k <= j < N -> q <> details.ix D k j /\ q <> details.ix D m j) ->
         details.rd a' q = details.rd ak q)) /\
   p' !!! (N - 1)%nat = ((-1) ^ Z.of_nat (interchanges n ndim a pivot (S k)))%Z /\
   (p' !!! (N - 1)%nat = 1%Z \/ p' !!! (N - 1)%nat = (-1)%Z)) /\
  exists aF pF,
    details.m_a r = Some aF /\ details.m_pivot r = Some pF /\
    (elim_prefix n ndim a pivot (N - 1) = Next (aF, pF) \/
     elim_prefix n ndim a pivot (N - 1) = Exit (aF, pF)) /\
    pF !!! k = Z.of_nat m /\
    (forall j, k <= j < N ->
       details.rd aF (details.ix D k j) = details.rd ak (details.ix D m j)) /\
    pF !!! (N - 1)%nat = ((-1) ^ Z.of_nat (interchanges n ndim a pivot (N - 1)))%Z /\
    (pF !!! (N - 1)%nat = 1%Z \/ pF !!! (N - 1)%nat = (-1)%Z).
Proof.
  intros Hn Hd N D Hlp Hla Hk Hpre m a' p' r. split.
  - destruct (elim_facts.elim_prefix_length _ _ _ _ _ _ _ Hpre) as [Hak Hpk].
    destruct (elim_facts.find_pivot_spec N D ak k ltac:(lia)) as (Hm & _ & Hmax & Hfirst).
    fold m in Hm, Hmax, Hfirst.
    destruct (elim_facts.pivot_phase_pivot N D k ak pk ltac:(lia) ltac:(lia)) as [Hrec Hpar].
    fold m p' in Hrec, Hpar.
    assert (Hparity : p' !!! (N - 1)%nat
                      = ((-1) ^ Z.of_nat (interchanges n ndim a pivot (S k)))%Z).
    { pose proof (elim_facts.elim_prefix_parity n ndim a pivot k ak pk Hn Hlp ltac:(lia) Hpre)
        as Hinv.
      fold N in Hinv.
      rewrite Hpar, (elim_facts.interchanges_S _ _ _ _ _ _ _ Hpre), Hinv.
      fold N D m. destruct (decide (m = k)); [rewrite Nat.add_0_r; reflexivity|].
      rewrite Nat.add_1_r, Nat2Z.inj_succ, Z.pow_succ_r by lia. lia. }
    split; [exact Hm|]. split; [exact Hmax|]. split; [exact Hfirst|]. split; [exact Hrec|].
    split; [|split; [|split; [exact Hparity|]]].
    + intros E. unfold a', details.pivot_phase. simpl. fold m.
      destruct (decide (m = k)); [reflexivity|contradiction].
    + intros E. unfold a', details.pivot_phase. simpl. fold m.
      destruct (decide (m = k)); [contradiction|]. simpl.
      apply elim_facts.swap_rows_spec; try lia.
    + rewrite Hparity. apply elim_facts.pow_minus_one.
  - destruct (pass_facts.decomp_returns_run n ndim work a c pivot f Hn Hd)
      as (aF & pF & Ha & Hp & Hrun).
    fold r in Ha, Hp. fold N in Hrun.
    exists aF, pF. split; [exact Ha|]. split; [exact Hp|]. split; [exact Hrun|].
    assert (HK : N - 1 = k + 1 + (N - 1 - (k + 1))) by lia.
    destruct (pass_facts.recorded_persists n ndim a pivot k ak pk Hn Hd Hlp Hla Hpre
                (N - 1 - (k + 1)) aF pF ltac:(fold N; lia)
                ltac:(fold N; rewrite <- HK; exact Hrun)) as [Hrec Hrow].
    fold N D m in Hrec, Hrow.
    pose proof (pass_facts.elim_run_parity n ndim a pivot (N - 1) aF pF Hn Hd Hlp Hla
                  (Nat.le_refl _) Hrun) as Hpar. fold N in Hpar.
    split; [exact Hrec|]. split; [exact Hrow|]. split; [exact Hpar|].
    rewrite Hpar. apply elim_facts.pow_minus_one.
Qed.

(** The first pass on [[0,1],[1,0]]: row 1 is chosen, one interchange, and
    [decomp] returns [pivot = [1, -1]] with the old row 1 in row 0. *)
Lemma decomp_pivot_passes_witness :
  let a := [0; 1; 1; 0]%float in
  fst (details.find_pivot 2 2 a 0) = 1%nat /\
  interchanges 2 2 a [0; 0]%Z 1 = 1%nat /\
  exists aF pF,
    details.decomp 2 2 (Some [0; 0]%float) (details.Mem (Some a) 0%float (Some [0; 0]%Z) 0)
    = details.Mem (Some aF) 1%float (Some pF) OK /\
    pF !!! 0%nat = 1%Z /\ pF !!! 1%nat = (-1)%Z /\
    details.rd aF 0 = 1%float /\ details.rd aF 1 = 0%float.
Proof.
  intros a.
  destruct (decomp_pivot_passes 2 2 [0; 0]%float a 0%float [0; 0]%Z 0 0%nat a [0; 1]%Z
              ltac:(lia) ltac:(lia) ltac:(simpl; lia) ltac:(simpl; lia)
              ltac:(simpl; lia) eq_refl)
    as (_ & aF & pF & Ha & Hp & _ & Hrec & Hrow & Hpar & _).
  split; [reflexivity|]. split; [reflexivity|].
  exists aF, pF. split; [|split; [exact Hrec|split; [exact Hpar|split]]].
  - vm_compute in Ha, Hp. injection Ha as <-. injection Hp as <-. reflexivity.
  - apply (Hrow 0%nat). simpl. lia.
  - apply (Hrow 1%nat). simpl. lia.
Defined.

(** * The solve after any factorization *)

(** C10: once the factorization has returned, [Solve::operator()] never
    reports a failure, whatever the status flag says; it runs
    [details::solve] on what the factorization left.  The block of the
    object receives the result [x] of the triangular solve: every pass of the
    forward elimination interchanges [b[pivot[k]]] and [b[k]] and adds the
    multiples to the rows below, and every [x[k]] of the back substitution is
    a quotient by the diagonal entry [a[k][k]], taken without any test on
    that entry. *)
Theorem Solve_call_ignores_status (junk_double : block -> nat -> float)
    (junk_int : nat -> Z) (malloc_fails : bool)
    (A : list (list float)) (rb : loc) (bv : list float)
    (self : Solve) (h : store) (dec : Decomp) :
  h !! rb = Some bv -> length A = length bv ->
  Decomp_call junk_double junk_int malloc_fails A Decomp_new = Returns dec ->
  (forall what s', Solve_call junk_double junk_int malloc_fails A rb self h <> Throws what s') /\
  (owned self rb h ->
   details.pivots_in_range (length A) (default [] (pivot_ dec)) = true ->
   let N := length A in
   let n := Z.of_nat N in
   let a := default [] (data_ dec) in
   let pivot := default [] (pivot_ dec) in
   let x := details.solve n n a bv pivot in
   let fwd := if (n =? 1)%Z then bv else details.forward_elim N N a pivot bv in
   exists p h',
     Solve_call junk_double junk_int malloc_fails A rb self h
     = Returns (MkSolve (Some p), h') /\
     h' !! p = Some x /\
     (forall k, k < N ->
        details.rd x k
        = (for_up (k + 1) N
             (fun j t => (t - details.rd a (details.ix N k j) * details.rd x j)%float)
             (details.rd fwd k)
           / details.rd a (details.ix N k k))%float) /\
     (forall k b', k < N - 1 -> length b' = N ->
        let m := Z.to_nat (pivot !!! k) in
        let b1 := details.forward_step N N a pivot k b' in
        (forall i, i <= k -> details.rd b1 i = details.rd (details.swap_cells b' m k) i) /\
        (forall i, k < i < N ->
           details.rd b1 i
           = (details.rd (details.swap_cells b' m k) i
              + details.rd a (details.ix N i k) * details.rd b' m)%float))).
Proof.
  intros Hb Hlen Hdec. split.
  - intros what s'. unfold Solve_call. rewrite Hb.
    destruct (decide (length A = length bv)) as [_|]; [|contradiction].
    destruct (match data_right_ self with
              | Some q => if decide (is_Some (h !! q)) then Some (delete q h) else None
              | None => Some h
              end) as [h1|]; [|discriminate].
    destruct (h1 !! rb) as [b1|]; [|discriminate].
    destruct (<[fresh (dom h1) := _]> h1 !! rb) as [b2|]; [|discriminate].
    rewrite Hdec. destruct (details.pivots_in_range _ _); discriminate.
  - intros Hown Hpiv N n a pivot x fwd.
    destruct (Solve_call_runs junk_double junk_int malloc_fails A rb bv self h dec
                Hb Hlen Hown Hdec Hpiv) as [Hp Hrun].
    eexists _, _. split; [exact Hrun|]. split; [apply lookup_insert_eq|].
    assert (HA : A <> []) by (intros ->; discriminate Hdec).
    assert (HN : 1 <= N) by (unfold N; destruct A; simpl; [congruence|lia]).
    split.
    + intros k Hk.
      pose proof (loop_facts.back_substitution_every n n a bv pivot
                    ltac:(unfold n; lia) ltac:(unfold n, N; lia)) as Hx.
      cbv zeta in Hx. replace (Z.to_nat n) with N in Hx by (unfold n; lia).
      apply Hx, Hk.
    + intros k b' Hk Hb' m b1.
      destruct (loop_facts.forward_step_spec N N a pivot k b' ltac:(lia) ltac:(lia))
        as (_ & Hsame & Hrows).
      split; [|exact Hrows]. intros i Hi. apply Hsame. left. exact Hi.
Qed.

(** A factorization flagged [Singular], solved all the same: the second
    diagonal entry is zero, and the quotients are infinite. *)
Lemma Solve_call_ignores_status_witness :
  let dec := MkDecomp 1.0e+32%float 2 (Some [2; 4; -0.5; 0]%float)
                      (Some [1; -1; 0; 0]%Z) Singular in
  Decomp_call zero_double zero_int false [[1; 2]; [2; 4]]%float Decomp_new = Returns dec /\
  exists p h',
    Solve_call zero_double zero_int false [[1; 2]; [2; 4]]%float 0%nat Solve_new
               {[ 0%nat := [-3; 4]%float ]}
    = Returns (MkSolve (Some p), h') /\
    h' !! p = Some [infinity; neg_infinity].
Proof.
  intros dec. split; [reflexivity|].
  assert (Hb : ({[ 0%nat := [-3; 4]%float ]} : store) !! 0%nat = Some [-3; 4]%float)
    by reflexivity.
  assert (Hd : Decomp_call zero_double zero_int false [[1; 2]; [2; 4]]%float Decomp_new
               = Returns dec) by reflexivity.
  destruct (proj2 (Solve_call_ignores_status zero_double zero_int false
                     [[1; 2]; [2; 4]]%float 0%nat [-3; 4]%float Solve_new
                     {[ 0%nat := [-3; 4]%float ]} dec Hb eq_refl Hd) I eq_refl)
    as (p & h' & Hrun & Hx & _).
  exists p, h'. split; [exact Hrun|]. exact Hx.
Defined.
